(** * Beacon: the local data store, progress tracking and legacy migration

    A shallow embedding of [src/js/beacon-storage.js].

    Modelling conventions.
    - [localStorage] is a record with one field per key the module uses.  A
      stored string is represented by what [JSON.parse] makes of it: the
      value it denotes ([Parsed]) or a text the parser rejects ([Corrupt]).
      The documents under [beacon_entries] and [beacon_progress], when they
      parse, have the shape the module writes; the legacy document is
      arbitrary JSON.
    - [localStorage] may be out of reach altogether ([Unavailable]): every
      access then raises.  A reachable [localStorage] accepts every write.
    - Functions that touch storage live in the monad [M]: they take the
      storage and return an outcome ([Ok] or [Throw]) with the storage they
      leave behind.  [try_catch] is the source's try/catch.
    - The clock and the random generator are inputs.  One call reads the
      clock at one instant.  Entry timestamps stay text (the module never
      interprets them); progress timestamps are re-read as dates by the
      streak logic and are kept as the instant (milliseconds since the
      epoch) their ISO string denotes.  Local calendar dates are taken at a
      fixed offset from UTC.
    - The identifiers that [generateUUID] draws are an input too: [uuids n]
      is the one drawn for the entry created after [n] others.
    - JavaScript numbers that occur here are integers or NaN; strings are
      ASCII text.  [JSON.stringify] writes NaN as [null]; a stored context
      keeps NaN in its place, since [===] tells neither from any number. *)

From Stdlib Require Import ZArith String Ascii List Lia Bool.
From stdpp Require Import base option list gmap strings pretty.

Set Warnings "-register-all".

Local Open Scope Z_scope.
Local Open Scope string_scope.

(** ** JavaScript values *)

(** A number: an integer or NaN. *)
Inductive number := Num (z : Z) | NaN.

(** [a === b] on numbers; NaN equals nothing, itself included. *)
Definition strict_eq (a b : number) : bool :=
  match a, b with
  | Num x, Num y => bool_decide (x = y)
  | _, _ => false
  end.

(** What [JSON.parse] returns.  The properties of an object come in the
    order [Object.entries] lists them, with distinct names. *)
Inductive json :=
| JNull
| JBool (b : bool)
| JNum (z : Z)
| JStr (s : string)
| JArr (items : list json)
| JObj (props : list (string * json)).

(** A value read from a property: [None] is [undefined]. *)
Definition jsval := option json.

Inductive exn := SyntaxError | TypeError | SecurityError.

Inductive result (A : Type) :=
| Ok (a : A)
| Throw (e : exn).
Arguments Ok {A} a.
Arguments Throw {A} e.

Definition truthy (v : jsval) : bool :=
  match v with
  | None | Some JNull => false
  | Some (JBool b) => b
  | Some (JNum z) => negb (Z.eqb z 0)
  | Some (JStr s) => negb (String.eqb s "")
  | Some (JArr _) | Some (JObj _) => true
  end.

(** [typeof v === 'string'] and [typeof v === 'object'] *)
Definition typeof_string (v : json) : bool :=
  match v with JStr _ => true | _ => false end.

Definition typeof_object (v : json) : bool :=
  match v with JNull | JArr _ | JObj _ => true | _ => false end.

Fixpoint assoc (name : string) (props : list (string * json)) : jsval :=
  match props with
  | [] => None
  | (k, v) :: rest => if String.eqb k name then Some v else assoc name rest
  end.

(** [v.name] for the names this module reads ([content], [text], [prompt],
    [createdAt], [updatedAt]): none of them is a property of a string, a
    number, a boolean or an array; reading a property of [null] raises. *)
Definition get_prop (v : json) (name : string) : result jsval :=
  match v with
  | JNull => Throw TypeError
  | JObj props => Ok (assoc name props)
  | _ => Ok None
  end.

(** ** Strings: [trim], [split('-')], [parseInt(_, 10)] *)

Definition is_space (c : ascii) : bool :=
  let n := nat_of_ascii c in
  (Nat.leb 9 n && Nat.leb n 13) || Nat.eqb n 32.

Fixpoint trimStart (s : string) : string :=
  match s with
  | String c rest => if is_space c then trimStart rest else s
  | EmptyString => EmptyString
  end.

Fixpoint trimEnd (s : string) : string :=
  match s with
  | String c rest =>
      match trimEnd rest with
      | EmptyString => if is_space c then EmptyString else String c EmptyString
      | kept => String c kept
      end
  | EmptyString => EmptyString
  end.

Definition trim (s : string) : string := trimEnd (trimStart s).

(** [s.split('-')]: always at least one part. *)
Fixpoint split_dash (s : string) : list string :=
  match s with
  | EmptyString => [EmptyString]
  | String c rest =>
      if Ascii.eqb c "-" then EmptyString :: split_dash rest
      else match split_dash rest with
           | part :: parts => String c part :: parts
           | [] => [String c EmptyString]
           end
  end.

Definition digit_value (c : ascii) : option Z :=
  let n := nat_of_ascii c in
  if Nat.leb 48 n && Nat.leb n 57 then Some (Z.of_nat n - 48) else None.

(** Reads the longest run of leading digits; [None] when there is none. *)
Fixpoint read_digits (acc : option Z) (s : string) : option Z :=
  match s with
  | String c rest =>
      match digit_value c with
      | Some d => read_digits (Some (10 * default 0 acc + d)) rest
      | None => acc
      end
  | EmptyString => acc
  end.

(** [parseInt(s, 10)]: the integer that the sign and the leading digits
    spell, [NaN] when there is no digit.  This is the number JavaScript
    returns as long as the integer is at most 2^53 in magnitude; a longer
    run of digits is rounded there to the nearest number the floating-point
    format holds, which this definition leaves out. *)
Definition parseInt (s : string) : number :=
  let body := trimStart s in
  let '(negative, digits) :=
    match body with
    | String "-" rest => (true, rest)
    | String "+" rest => (false, rest)
    | _ => (false, body)
    end in
  match read_digits None digits with
  | Some n => Num (if negative then - n else n)
  | None => NaN
  end.

(** ** Entries and progress *)

Inductive EntryType := reflection | free.

Record Context := {
  week : number;
  day : number;
  promptIndex : number
}.

Record Entry := {
  id : string;
  type : EntryType;
  content : string;
  prompt : json;
  context : option Context;
  createdAt : json;
  updatedAt : json
}.

Record Progress := {
  currentWeek : Z;
  currentDay : Z;
  completedDays : gmap string Z;
  streak : Z;
  lastCompletedDate : option Z
}.

Global Instance EntryType_eq_dec : EqDecision EntryType.
Proof. solve_decision. Defined.

(** ** localStorage *)

Inductive doc (A : Type) :=
| Corrupt (raw : string)
| Parsed (a : A).
Arguments Corrupt {A} raw.
Arguments Parsed {A} a.

Record Storage := {
  beacon_entries : option (doc (list Entry));
  beacon_progress : option (doc Progress);
  beacon_journals : option (doc json);
  beacon_journals_archived : option (doc json)
}.

Inductive LocalStorage :=
| Unavailable
| Available (s : Storage).

(** [STORAGE_KEYS], each key with the type of the document kept under it. *)
Inductive STORAGE_KEYS : Type -> Type :=
| ENTRIES : STORAGE_KEYS (list Entry)
| PROGRESS : STORAGE_KEYS Progress
| LEGACY_JOURNALS : STORAGE_KEYS json
| LEGACY_JOURNALS_ARCHIVED : STORAGE_KEYS json.

Definition read {A} (k : STORAGE_KEYS A) (s : Storage) : option (doc A) :=
  match k in STORAGE_KEYS T return option (doc T) with
  | ENTRIES => beacon_entries s
  | PROGRESS => beacon_progress s
  | LEGACY_JOURNALS => beacon_journals s
  | LEGACY_JOURNALS_ARCHIVED => beacon_journals_archived s
  end.

Definition write {A} (k : STORAGE_KEYS A) : option (doc A) -> Storage -> Storage :=
  match k in STORAGE_KEYS T return option (doc T) -> Storage -> Storage with
  | ENTRIES => fun d s =>
      {| beacon_entries := d; beacon_progress := beacon_progress s;
         beacon_journals := beacon_journals s;
         beacon_journals_archived := beacon_journals_archived s |}
  | PROGRESS => fun d s =>
      {| beacon_entries := beacon_entries s; beacon_progress := d;
         beacon_journals := beacon_journals s;
         beacon_journals_archived := beacon_journals_archived s |}
  | LEGACY_JOURNALS => fun d s =>
      {| beacon_entries := beacon_entries s; beacon_progress := beacon_progress s;
         beacon_journals := d;
         beacon_journals_archived := beacon_journals_archived s |}
  | LEGACY_JOURNALS_ARCHIVED => fun d s =>
      {| beacon_entries := beacon_entries s; beacon_progress := beacon_progress s;
         beacon_journals := beacon_journals s;
         beacon_journals_archived := d |}
  end.

(** ** The storage monad *)

Definition M (A : Type) : Type := LocalStorage -> result A * LocalStorage.

Definition ret {A} (a : A) : M A := fun ls => (Ok a, ls).

Definition throw {A} (e : exn) : M A := fun ls => (Throw e, ls).

Definition bind {A B} (m : M A) (k : A -> M B) : M B :=
  fun ls =>
    match m ls with
    | (Ok a, ls') => k a ls'
    | (Throw e, ls') => (Throw e, ls')
    end.

Definition try_catch {A} (body : M A) (handler : exn -> M A) : M A :=
  fun ls =>
    match body ls with
    | (Ok a, ls') => (Ok a, ls')
    | (Throw e, ls') => handler e ls'
    end.

(** A pure computation that may raise, run inside [M]. *)
Definition lift {A} (r : result A) : M A := fun ls => (r, ls).

Notation "'let*' x ':=' m 'in' k" := (bind m (fun x => k))
  (at level 10, x name, m at level 100, k at level 200).
Notation "m ';;' k" := (bind m (fun _ => k))
  (at level 100, k at level 200, right associativity).

Definition getItem {A} (k : STORAGE_KEYS A) : M (option (doc A)) :=
  fun ls =>
    match ls with
    | Unavailable => (Throw SecurityError, ls)
    | Available s => (Ok (read k s), ls)
    end.

Definition setItem {A} (k : STORAGE_KEYS A) (d : doc A) : M unit :=
  fun ls =>
    match ls with
    | Unavailable => (Throw SecurityError, ls)
    | Available s => (Ok tt, Available (write k (Some d) s))
    end.

Definition removeItem {A} (k : STORAGE_KEYS A) : M unit :=
  fun ls =>
    match ls with
    | Unavailable => (Throw SecurityError, ls)
    | Available s => (Ok tt, Available (write k None s))
    end.

(** A stored string used as a condition: [null] and the empty string are
    falsy. *)
Definition present {A} (stored : option (doc A)) : bool :=
  match stored with
  | None => false
  | Some (Corrupt raw) => negb (String.eqb raw "")
  | Some (Parsed _) => true
  end.

Definition JSON_parse {A} (stored : doc A) : result A :=
  match stored with
  | Corrupt _ => Throw SyntaxError
  | Parsed a => Ok a
  end.

Definition JSON_stringify {A} (a : A) : doc A := Parsed a.

(** ** Entry schema and factory *)

(** [createEntry(type, content, prompt, context)]; [uuid] is what
    [generateUUID()] draws and [now] is [new Date().toISOString()]. *)
Definition createEntry (uuid now : string) (type : EntryType) (content : string)
    (prompt : json) (context : option Context) : Entry :=
  {| id := uuid;
     type := type;
     content := content;
     prompt := prompt;
     context := context;
     createdAt := JStr now;
     updatedAt := JStr now |}.

(** ** Entries CRUD *)

Definition getAllEntries : M (list Entry) :=
  try_catch
    (let* stored := getItem ENTRIES in
     match stored with
     | Some d => if present stored then lift (JSON_parse d) else ret []
     | None => ret []
     end)
    (fun _ => ret []).

Definition getEntryById (id' : string) : M (option Entry) :=
  let* entries := getAllEntries in
  ret (find (fun entry => String.eqb (id entry) id') entries).

Definition getEntriesByType (type' : EntryType) : M (list Entry) :=
  let* entries := getAllEntries in
  ret (filter (fun entry => type entry = type') entries).

(** The predicate of [getEntryByContext]. *)
Definition context_is (week' day' promptIndex' : number) (entry : Entry) : bool :=
  match context entry with
  | Some c =>
      strict_eq (week c) week' && strict_eq (day c) day'
      && strict_eq (promptIndex c) promptIndex'
  | None => false
  end.

Definition getEntryByContext (week' day' promptIndex' : number) : M (option Entry) :=
  let* entries := getAllEntries in
  ret (find (context_is week' day' promptIndex') entries).

Definition saveEntry (entry : Entry) : M Entry :=
  try_catch
    (let* entries := getAllEntries in
     setItem ENTRIES (JSON_stringify (entries ++ [entry])%list) ;;
     ret entry)
    (fun error => throw error).

(** The [updates] object of [updateEntry]: the fields it carries. *)
Record Updates := {
  new_id : option string;
  new_type : option EntryType;
  new_content : option string;
  new_prompt : option json;
  new_context : option (option Context);
  new_createdAt : option json
}.

(** [{ ...entry, ...updates, updatedAt: now }] *)
Definition merge (entry : Entry) (updates : Updates) (now : string) : Entry :=
  {| id := default (id entry) (new_id updates);
     type := default (type entry) (new_type updates);
     content := default (content entry) (new_content updates);
     prompt := default (prompt entry) (new_prompt updates);
     context := default (context entry) (new_context updates);
     createdAt := default (createdAt entry) (new_createdAt updates);
     updatedAt := JStr now |}.

Definition updateEntry (now : string) (id' : string) (updates : Updates)
    : M (option Entry) :=
  try_catch
    (let* entries := getAllEntries in
     match list_find (fun entry => id entry = id') entries with
     | None => ret None
     | Some (index, found) =>
         let updated := merge found updates now in
         setItem ENTRIES (JSON_stringify (<[index := updated]> entries)) ;;
         ret (Some updated)
     end)
    (fun error => throw error).

Definition deleteEntry (id' : string) : M bool :=
  try_catch
    (let* entries := getAllEntries in
     let filteredEntries := filter (fun entry => id entry <> id') entries in
     if Nat.eqb (length filteredEntries) (length entries) then ret false
     else
       setItem ENTRIES (JSON_stringify filteredEntries) ;;
       ret true)
    (fun error => throw error).

Definition getEntryCount : M nat :=
  let* entries := getAllEntries in
  ret (length entries).

(** ** Progress tracking *)

Definition default_progress : Progress :=
  {| currentWeek := 1;
     currentDay := 1;
     completedDays := ∅;
     streak := 0;
     lastCompletedDate := None |}.

Definition getProgress : M Progress :=
  try_catch
    (let* stored := getItem PROGRESS in
     match stored with
     | Some d => if present stored then lift (JSON_parse d) else ret default_progress
     | None => ret default_progress
     end)
    (fun _ => ret default_progress).

Definition saveProgress (progress : Progress) : M unit :=
  try_catch
    (setItem PROGRESS (JSON_stringify progress))
    (fun error => throw error).

(** [new Date(t).toDateString()] names the local calendar date of the
    instant [t]; it is represented by the number of that day.  The zone
    [tz] gives the offset of local time from UTC that is in force at each
    instant, in milliseconds; it changes where daylight saving starts or
    ends. *)
Definition toDateString (tz : Z -> Z) (t : Z) : Z :=
  (t + tz t) `div` 86400000.

(** The key [`${week}-${day}`] *)
Definition day_key (week' day' : Z) : string :=
  pretty week' +:+ "-" +:+ pretty day'.

Definition markDayComplete (tz : Z -> Z) (now : Z) (week' day' : Z)
    : M Progress :=
  let* progress := getProgress in
  let key := day_key week' day' in
  match completedDays progress !! key with
  | Some _ => ret progress
  | None =>
      let completed := <[key := now]> (completedDays progress) in
      let today := toDateString tz now in
      let lastDate := toDateString tz <$> lastCompletedDate progress in
      let streak' :=
        if decide (lastDate = Some today) then streak progress
        else if decide (lastDate = Some (toDateString tz (now - 86400000)))
             then streak progress + 1
             else 1 in
      let '(week_after, day_after) :=
        if bool_decide (week' = currentWeek progress)
           && bool_decide (day' = currentDay progress)
        then if bool_decide (day' < 7) then (currentWeek progress, day' + 1)
             else (week' + 1, 1)
        else (currentWeek progress, currentDay progress) in
      let progress' :=
        {| currentWeek := week_after;
           currentDay := day_after;
           completedDays := completed;
           streak := streak';
           lastCompletedDate := Some now |} in
      saveProgress progress' ;;
      ret progress'
  end.

Definition isDayComplete (week' day' : Z) : M bool :=
  let* progress := getProgress in
  ret (bool_decide (is_Some (completedDays progress !! day_key week' day'))).

Definition getCompletedDaysCount : M nat :=
  let* progress := getProgress in
  ret (size (completedDays progress)).

(** ** Data migration *)

Definition hasLegacyData : M bool :=
  let* stored := getItem LEGACY_JOURNALS in
  ret (present stored).

Definition parseContextFromLegacyKey (key : string) : option Context :=
  match split_dash key with
  | [part0; part1; part2] =>
      Some {| week := parseInt part0;
              day := parseInt part1;
              promptIndex := parseInt part2 |}
  | _ => None
  end.

(** [Object.entries(parsed)]: the own properties of an object, the indexed
    elements of an array or of a string, nothing for a number or a boolean;
    [null] raises. *)
Definition Object_entries (parsed : json) : result (list (string * json)) :=
  match parsed with
  | JNull => Throw TypeError
  | JObj props => Ok props
  | JArr items => Ok (imap (fun i item => (pretty i, item)) items)
  | JStr s =>
      Ok (imap (fun i c => (pretty i, JStr (String c EmptyString)))
               (list_ascii_of_string s))
  | JBool _ | JNum _ => Ok []
  end.

(** [a || b] once [a] has been read. *)
Definition or_else (a : jsval) (b : json) : json :=
  match a with
  | Some v => if truthy a then v else b
  | None => b
  end.

Definition rbind {A B} (r : result A) (k : A -> result B) : result B :=
  match r with
  | Ok a => k a
  | Throw e => Throw e
  end.

Notation "'try*' x ':=' r 'in' k" := (rbind r (fun x => k))
  (at level 10, x name, r at level 100, k at level 200).

(** [typeof value === 'string' ? value : (value.content || value.text || '')] *)
Definition legacy_content (value : json) : result json :=
  if typeof_string value then Ok value
  else
    try* c := get_prop value "content" in
    if truthy c then Ok (or_else c (JStr ""))
    else
      try* t := get_prop value "text" in
      Ok (or_else t (JStr "")).

(** [typeof value === 'object' ? (value.prompt || '') : ''] *)
Definition legacy_prompt (value : json) : result json :=
  if typeof_object value then
    try* p := get_prop value "prompt" in
    Ok (or_else p (JStr ""))
  else Ok (JStr "").

(** The original timestamps, when the legacy value carries them. *)
Definition preserve_timestamps (value : json) (entry : Entry) : result Entry :=
  if typeof_object value then
    try* created := get_prop value "createdAt" in
    match created with
    | Some original =>
        if truthy created then
          try* updated := get_prop value "updatedAt" in
          Ok {| id := id entry; type := type entry; content := content entry;
                prompt := prompt entry; context := context entry;
                createdAt := original;
                updatedAt := or_else updated original |}
        else Ok entry
    | None => Ok entry
    end
  else Ok entry.

(** One turn of the loop over [Object.entries(parsed)]: [entries] is the
    array built so far, [uuids n] the identifier drawn for the entry created
    when [n] entries have been created before it. *)
Definition migrate_pair (uuids : nat -> string) (now : string)
    (entries : list Entry) (kv : string * json) : result (list Entry) :=
  let '(key, value) := kv in
  let context := parseContextFromLegacyKey key in
  let isReflection := bool_decide (context <> None) in
  try* content := legacy_content value in
  try* prompt := legacy_prompt value in
  match content with
  | JStr text =>
      if truthy (Some (JStr (trim text))) then
        let entry :=
          createEntry (uuids (length entries)) now
            (if isReflection then reflection else free) text prompt context in
        try* entry' := preserve_timestamps value entry in
        Ok (entries ++ [entry'])%list
      else Ok entries
  | _ => Throw TypeError
  end.

Fixpoint migrate_loop (uuids : nat -> string) (now : string)
    (pairs : list (string * json)) (entries : list Entry) : result (list Entry) :=
  match pairs with
  | [] => Ok entries
  | kv :: rest =>
      try* entries' := migrate_pair uuids now entries kv in
      migrate_loop uuids now rest entries'
  end.

Record MigrationResult := {
  migrated : bool;
  count : nat;
  error : option exn
}.

Definition migrateFromLegacy (uuids : nat -> string) (now : string)
    : M MigrationResult :=
  let* legacyData := getItem LEGACY_JOURNALS in
  match legacyData with
  | Some raw =>
      if negb (present legacyData) then
        ret {| migrated := false; count := 0; error := None |}
      else
        try_catch
          (let* parsed := lift (JSON_parse raw) in
           let* pairs := lift (Object_entries parsed) in
           let* entries := lift (migrate_loop uuids now pairs []) in
           (if Nat.ltb 0 (length entries) then
              let* existing := getAllEntries in
              let merged := (existing ++ entries)%list in
              setItem ENTRIES (JSON_stringify merged) ;;
              setItem LEGACY_JOURNALS_ARCHIVED raw ;;
              removeItem LEGACY_JOURNALS
            else ret tt) ;;
           ret {| migrated := true; count := length entries; error := None |})
          (fun err => ret {| migrated := false; count := 0; error := Some err |})
  | None => ret {| migrated := false; count := 0; error := None |}
  end.

(** * The vocabulary of the properties *)

(** The entries and the progress record as the module reads them. *)
Definition stored_entries (ls : LocalStorage) : list Entry :=
  match ls with
  | Available {| beacon_entries := Some (Parsed entries) |} => entries
  | _ => []
  end.

Definition stored_progress (ls : LocalStorage) : Progress :=
  match ls with
  | Available {| beacon_progress := Some (Parsed progress) |} => progress
  | _ => default_progress
  end.

(** No usable document under key [k]: [localStorage] is out of reach, the
    key is not set, or its text does not parse. *)
Definition no_document {A} (k : STORAGE_KEYS A) (ls : LocalStorage) : Prop :=
  match ls with
  | Unavailable => True
  | Available s => read k s = None \/ exists raw, read k s = Some (Corrupt raw)
  end.

(** Yesterday's date: the calendar date before today's. *)
Definition yesterday (tz : Z -> Z) (now : Z) : Z := toDateString tz now - 1.

(** The streak after a completion: unchanged when the last completion fell
    on today's date, one more when it fell on the date of the instant 24
    hours before now, 1 otherwise. *)
Definition streak_rule (tz : Z -> Z) (now : Z) (last : option Z) (streak : Z)
    : Z :=
  match last with
  | Some t =>
      if decide (toDateString tz t = toDateString tz now) then streak
      else if decide (toDateString tz t = toDateString tz (now - 86400000))
           then streak + 1
           else 1
  | None => 1
  end.

(** The cursor after completing [(week, day)], in the words of the
    specification. *)
Definition cursor_rule (week' day' : Z) (cursor : Z * Z) : Z * Z :=
  if decide ((week', day') = cursor) then
    if decide (cursor.2 < 7) then (cursor.1, cursor.2 + 1)
    else (cursor.1 + 1, 1)
  else cursor.

(** The body of the [try] block of [migrateFromLegacy] up to the end of the
    loop. *)
Definition converted (uuids : nat -> string) (now : string) (raw : doc json)
    : result (list Entry) :=
  try* parsed := JSON_parse raw in
  try* pairs := Object_entries parsed in
  migrate_loop uuids now pairs [].

(** Storage after a migration that produced [entries]. *)
Definition migrated_storage (raw : doc json) (entries : list Entry)
    (s : Storage) : Storage :=
  write LEGACY_JOURNALS None
    (write LEGACY_JOURNALS_ARCHIVED (Some raw)
       (write ENTRIES
          (Some (Parsed (stored_entries (Available s) ++ entries)%list)) s)).

(** A pair is kept when the content extracted from its value is text that is
    not blank. *)
Definition kept (kv : string * json) : bool :=
  match legacy_content kv.2 with
  | Ok (JStr text) => negb (String.eqb (trim text) "")
  | _ => false
  end.

(** What the entry made from the pair [kv] looks like: its content is the
    extracted text; it is a reflection, with the numbers read from the
    parts as context, exactly when the key has three parts between dashes,
    and a free entry without context otherwise. *)
Definition migrated_from (kv : string * json) (entry : Entry) : Prop :=
  legacy_content kv.2 = Ok (JStr (content entry))
  /\ match split_dash kv.1 with
     | [part0; part1; part2] =>
         type entry = reflection
         /\ context entry = Some {| week := parseInt part0;
                                    day := parseInt part1;
                                    promptIndex := parseInt part2 |}
     | _ => type entry = free /\ context entry = None
     end.

(** The pattern of the specification: three parts, each a run of digits. *)
Fixpoint only_digits (s : string) : bool :=
  match s with
  | String c rest => bool_decide (is_Some (digit_value c)) && only_digits rest
  | EmptyString => true
  end.

Definition all_digits (s : string) : bool :=
  negb (String.eqb s "") && only_digits s.

Definition numeric_key (key : string) : bool :=
  match split_dash key with
  | [part0; part1; part2] =>
      all_digits part0 && all_digits part1 && all_digits part2
  | _ => false
  end.

(** [updateEntry(id, {content: X})] *)
Definition content_only (X : string) : Updates :=
  {| new_id := None; new_type := None; new_content := Some X;
     new_prompt := None; new_context := None; new_createdAt := None |}.

(** [a <= b] on timestamps: the order of ISO-8601 strings, which is the
    order of the instants they name. *)
Definition stamp_le (a b : json) : Prop :=
  match a, b with
  | JStr x, JStr y => String.leb x y = true
  | _, _ => False
  end.

(** At most one entry per context triple. *)
Definition unique_contexts (entries : list Entry) : Prop :=
  forall w d p,
    (length (filter (fun entry => context_is w d p entry = true) entries) <= 1)%nat.

(** The operations of the entry store and the migration, as steps. *)
Inductive store_step : LocalStorage -> LocalStorage -> Prop :=
| step_save entry ls :
    store_step ls (saveEntry entry ls).2
| step_update now i updates ls :
    store_step ls (updateEntry now i updates ls).2
| step_delete i ls :
    store_step ls (deleteEntry i ls).2
| step_migrate uuids now ls :
    store_step ls (migrateFromLegacy uuids now ls).2.

(** The steps under the discipline of the journal editor
    ([saveCurrentEntry]): a reflection is saved only when
    [getEntryByContext] finds none for its context, and an update changes
    the content only. *)
Inductive disciplined_step : LocalStorage -> LocalStorage -> Prop :=
| disciplined_save entry ls :
    (forall c, context entry = Some c ->
       (getEntryByContext (week c) (day c) (promptIndex c) ls).1 = Ok None) ->
    disciplined_step ls (saveEntry entry ls).2
| disciplined_update now i X ls :
    disciplined_step ls (updateEntry now i (content_only X) ls).2
| disciplined_delete i ls :
    disciplined_step ls (deleteEntry i ls).2.

(** * Sample data *)

Definition empty_storage : Storage :=
  {| beacon_entries := None; beacon_progress := None;
     beacon_journals := None; beacon_journals_archived := None |}.

Definition with_legacy (record : json) : LocalStorage :=
  Available (write LEGACY_JOURNALS (Some (Parsed record)) empty_storage).

Definition sample_uuids (n : nat) : string := "uuid-" +:+ pretty n.

(** A zone without daylight saving, at UTC. *)
Definition utc : Z -> Z := fun _ => 0.

(** New York in March 2024: five hours behind UTC until the clocks go
    forward on 10 March at 07:00 UTC, four hours behind from then on. *)
Definition new_york : Z -> Z :=
  fun t => if bool_decide (t < 1710054000000) then -18000000 else -14400000.

(** Day [(1, 1)] completed on 10 March 2024 at noon in New York
    (16:00 UTC), with a streak of 3. *)
Definition march_10_progress : Progress :=
  {| currentWeek := 1;
     currentDay := 2;
     completedDays := {[ "1-1" := 1710086400000 ]};
     streak := 3;
     lastCompletedDate := Some 1710086400000 |}.

Definition march_10_storage : Storage :=
  write PROGRESS (Some (Parsed march_10_progress)) empty_storage.

Definition two_day_progress : Progress :=
  {| currentWeek := 1;
     currentDay := 2;
     completedDays := {[ "1-1" := 86400000 ]};
     streak := 1;
     lastCompletedDate := Some 86400000 |}.

Definition two_day_storage : Storage :=
  write PROGRESS (Some (Parsed two_day_progress)) empty_storage.

Definition week_end_progress : Progress :=
  {| currentWeek := 1;
     currentDay := 7;
     completedDays := ∅;
     streak := 0;
     lastCompletedDate := None |}.

Definition corrupt_legacy_storage : Storage :=
  write LEGACY_JOURNALS (Some (Corrupt "{not json")) empty_storage.

Definition hello_record : json :=
  JObj [("1-2-0", JStr "hello"); ("note", JStr "world")].

Definition blank_record : json := JObj [("1-1-0", JStr "   ")].

Definition mixed_record : json :=
  JObj [("1-2-0", JStr "hello"); ("note", JStr "world"); ("1-1-0", JStr "   ")].

Definition null_value_record : json :=
  JObj [("1-2-0", JStr "hello"); ("note", JStr "world"); ("1-3-0", JNull)].

Definition letters_record : json := JObj [("a-b-c", JStr "x")].

Definition twin_keys_record : json :=
  JObj [("1-1-0", JStr "morning"); ("01-1-0", JStr "evening")].

Definition first_entry : Entry :=
  createEntry "uuid-a" "2024-01-01T00:00:00.000Z" reflection "first thoughts"
    (JStr "What did you learn?")
    (Some {| week := Num 1; day := Num 1; promptIndex := Num 0 |}).

Definition second_entry : Entry :=
  createEntry "uuid-b" "2024-01-03T00:00:00.000Z" reflection "more thoughts"
    (JStr "What will you change?")
    (Some {| week := Num 1; day := Num 1; promptIndex := Num 1 |}).

Definition clashing_entry : Entry :=
  createEntry "uuid-c" "2024-01-04T00:00:00.000Z" reflection "again"
    (JStr "What did you learn?")
    (Some {| week := Num 1; day := Num 1; promptIndex := Num 0 |}).

Definition one_entry_storage : Storage :=
  write ENTRIES (Some (Parsed [first_entry])) empty_storage.

(** * The rest of the storage module, and the journal editor *)

(** ** Completed weeks *)

(** The inner loop of [getCompletedWeeksCount]: every day 1 to 7 of the week
    is in [completedDays]. *)
Definition week_complete (completed : gmap string Z) (week' : Z) : bool :=
  forallb (fun day' => bool_decide (is_Some (completed !! day_key week' day')))
    (seqZ 1 7).

Definition getCompletedWeeksCount : M nat :=
  let* progress := getProgress in
  ret (foldl
         (fun completedWeeks week' =>
            if week_complete (completedDays progress) week'
            then S completedWeeks else completedWeeks)
         0%nat (seqZ 1 8)).

(** ** The journal module *)

(** [truncatePreview(text, maxLength)]; [substring] reads a negative bound
    as 0. *)
Definition truncatePreview (text : string) (maxLength : Z) : string :=
  if String.eqb text "" then ""
  else if bool_decide (Z.of_nat (String.length text) <= maxLength) then text
  else trim (substring 0 (Z.to_nat maxLength) text) +:+ "...".

(** The module state of the editor. *)
Record Editor := {
  currentEditingEntry : option Entry;
  currentEditingContext : option Context
}.

(** [closeEntryEditor()] *)
Definition closeEntryEditor : Editor :=
  {| currentEditingEntry := None; currentEditingContext := None |}.

(** [openEntryEditor(entryId)], the modal and its text area being on the
    page: an empty or missing id opens a new free entry; an unknown id
    returns early and leaves the editor as it was. *)
Definition openEntryEditor (entryId : option string) (editor : Editor)
    : M Editor :=
  match entryId with
  | Some i =>
      if String.eqb i "" then ret closeEntryEditor
      else
        let* found := getEntryById i in
        match found with
        | Some entry =>
            ret {| currentEditingEntry := Some entry;
                   currentEditingContext := context entry |}
        | None => ret editor
        end
  | None => ret closeEntryEditor
  end.

(** [openReflectionEditor(week, day, promptIndex, promptText)], the modal
    and its text area being on the page. *)
Definition openReflectionEditor (week' day' promptIndex' : number) : M Editor :=
  let* existingEntry := getEntryByContext week' day' promptIndex' in
  ret {| currentEditingEntry := existingEntry;
         currentEditingContext :=
           Some {| week := week'; day := day'; promptIndex := promptIndex' |} |}.

(** [saveCurrentEntry()]: [textarea] is the value of the text area and
    [promptText] the text of the prompt element. *)
Definition saveCurrentEntry (uuid now : string) (textarea promptText : string)
    (editor : Editor) : M Editor :=
  let content := trim textarea in
  if String.eqb content "" then ret closeEntryEditor
  else
    match currentEditingEntry editor with
    | Some entry =>
        updateEntry now (id entry) (content_only content) ;;
        ret closeEntryEditor
    | None =>
        let type' :=
          match currentEditingContext editor with
          | Some _ => reflection
          | None => free
          end in
        let newEntry :=
          createEntry uuid now type' content (JStr promptText)
            (currentEditingContext editor) in
        saveEntry newEntry ;;
        ret closeEntryEditor
    end.

Definition getPromptPreview (week' day' promptIndex' : number)
    : M (option string) :=
  let* entry := getEntryByContext week' day' promptIndex' in
  ret ((fun e => truncatePreview (content e) 50) <$> entry).

Definition hasPromptContent (week' day' promptIndex' : number) : M bool :=
  let* entry := getEntryByContext week' day' promptIndex' in
  ret (bool_decide (is_Some entry)).

(** ** More vocabulary *)

(** A legacy value on which the loop of [migrateFromLegacy] raises: [null],
    or an object whose [content] (or, that being falsy, whose [text]) is
    truthy and not a string. *)
Definition is_text (v : jsval) : bool :=
  match v with Some (JStr _) => true | _ => false end.

Definition raising_value (value : json) : bool :=
  match value with
  | JNull => true
  | JObj props =>
      if truthy (assoc "content" props) then negb (is_text (assoc "content" props))
      else truthy (assoc "text" props) && negb (is_text (assoc "text" props))
  | _ => false
  end.

(** The timestamps of the entry made from [value]: the legacy ones when the
    value is an object with a truthy [createdAt], else the time of the
    migration. *)
Definition stamped_from (now : string) (kv : string * json) (entry : Entry)
    : Prop :=
  match kv.2 with
  | JObj props =>
      match assoc "createdAt" props with
      | Some created =>
          if truthy (Some created) then
            createdAt entry = created
            /\ updatedAt entry = or_else (assoc "updatedAt" props) created
          else createdAt entry = JStr now /\ updatedAt entry = JStr now
      | None => createdAt entry = JStr now /\ updatedAt entry = JStr now
      end
  | _ => createdAt entry = JStr now /\ updatedAt entry = JStr now
  end.

(** The parts of a printed integer between dashes. *)
Definition printed_parts (z : Z) : list string :=
  if bool_decide (z < 0) then [""; pretty (Z.abs_N z)] else [pretty (Z.abs_N z)].

(** The number of dashes in a key. *)
Fixpoint dashes (s : string) : nat :=
  match s with
  | String c rest => if Ascii.eqb c "-" then S (dashes rest) else dashes rest
  | EmptyString => 0
  end.

(** One call of [markDayComplete]. *)
Inductive progress_step : LocalStorage -> LocalStorage -> Prop :=
| progress_mark tz now w d ls :
    progress_step ls (markDayComplete tz now w d ls).2.

(** What every progress record written by [markDayComplete] satisfies. *)
Definition progress_ok (p : Progress) : Prop :=
  1 <= currentWeek p
  /\ 1 <= currentDay p <= 7
  /\ 0 <= streak p <= Z.of_nat (size (completedDays p))
  /\ (lastCompletedDate p = None -> completedDays p = ∅).

Definition blank_values_record : json :=
  JObj [("1-1-0", JNum 7); ("1-1-1", JBool true); ("note", JArr [JStr "x"]);
        ("1-2-0", JObj [("prompt", JStr "Why?")])].

Definition stamped_record : json :=
  JObj [("2-3-1",
         JObj [("text", JStr "kept");
               ("createdAt", JStr "2023-05-01T10:00:00.000Z")])].

(** ** The content module: the prompts of the study *)

Module BeaconContent.

(** The part of a day's content that the prompt functions read. *)
Record DayContent := {
  prompts : option (list string)
}.

(** [CONTENT]: weeks by number, and in a week days by number. *)
Definition Table := gmap Z (gmap Z DayContent).

(** [{ week, day, promptIndex, prompt }] *)
Record PromptRef := {
  week : Z;
  day : Z;
  promptIndex : nat;
  prompt : string
}.

Definition getWeekPrompts (CONTENT : Table) (weekNum : Z) : list PromptRef :=
  match CONTENT !! weekNum with
  | None => []
  | Some weekContent =>
      foldl
        (fun found day' =>
           match weekContent !! day' with
           | Some dayContent =>
               match prompts dayContent with
               | Some texts =>
                   (found
                    ++ imap (fun index text =>
                               {| week := weekNum; day := day';
                                  promptIndex := index; prompt := text |})
                         texts)%list
               | None => found
               end
           | None => found
           end)
        [] (seqZ 1 7)
  end.

Definition getAllPrompts (CONTENT : Table) : list PromptRef :=
  foldl (fun allPrompts week' => (allPrompts ++ getWeekPrompts CONTENT week')%list)
    [] (seqZ 1 8).

(** The prompt that [CONTENT] holds at a week, a day and an index. *)
Definition prompt_at (CONTENT : Table) (w d : Z) (index : nat) : option string :=
  weekContent ← CONTENT !! w;
  dayContent ← weekContent !! d;
  texts ← prompts dayContent;
  texts !! index.

End BeaconContent.
(** * Properties *)

(** ** Reading *)

Lemma getAllEntries_reads ls : getAllEntries ls = (Ok (stored_entries ls), ls).
Proof.
  destruct ls as [|[[[raw|entries]|] ? ? ?]]; try reflexivity.
  unfold getAllEntries, try_catch, bind, getItem; simpl.
  destruct (String.eqb raw ""); reflexivity.
Qed.

Lemma getProgress_reads ls : getProgress ls = (Ok (stored_progress ls), ls).
Proof.
  destruct ls as [|[? [[raw|progress]|] ? ?]]; try reflexivity.
  unfold getProgress, try_catch, bind, getItem; simpl.
  destruct (String.eqb raw ""); reflexivity.
Qed.

Lemma stored_entries_write entries s :
  stored_entries (Available (write ENTRIES (Some (Parsed entries)) s)) = entries.
Proof. by destruct s. Qed.

Lemma stored_progress_write p s :
  stored_progress (Available (write PROGRESS (Some (Parsed p)) s)) = p.
Proof. by destruct s. Qed.

Create Rewrite HintDb beacon.
#[local] Hint Rewrite getAllEntries_reads getProgress_reads
  stored_entries_write stored_progress_write : beacon.

(** Runs the reads of an operation. *)
Ltac run_reads :=
  unfold try_catch, bind; autorewrite with beacon.

Lemma getEntryByContext_reads w d p ls :
  getEntryByContext w d p ls
  = (Ok (find (context_is w d p) (stored_entries ls)), ls).
Proof. unfold getEntryByContext. by run_reads. Qed.

(** C9. When the store is absent or the stored document is corrupt,
    [getAllEntries] returns the empty sequence and [getProgress] the
    default progress record; neither raises. *)
Theorem absent_or_corrupt_reads_default ls :
  (no_document ENTRIES ls -> getAllEntries ls = (Ok [], ls))
  /\ (no_document PROGRESS ls -> getProgress ls = (Ok default_progress, ls))
  /\ default_progress
     = {| currentWeek := 1; currentDay := 1; completedDays := ∅;
          streak := 0; lastCompletedDate := None |}.
Proof.
  split; [|split; [|reflexivity]].
  - intros Hno. rewrite getAllEntries_reads.
    destruct ls as [|s]; [reflexivity|].
    destruct s; simpl in *. destruct Hno as [->|[raw ->]]; reflexivity.
  - intros Hno. rewrite getProgress_reads.
    destruct ls as [|s]; [reflexivity|].
    destruct s; simpl in *. destruct Hno as [->|[raw ->]]; reflexivity.
Qed.

Lemma absent_or_corrupt_reads_default_witness :
  getAllEntries (Available (write ENTRIES (Some (Corrupt "[{")) empty_storage))
  = (Ok [], Available (write ENTRIES (Some (Corrupt "[{")) empty_storage))
  /\ getProgress Unavailable = (Ok default_progress, Unavailable).
Proof.
  split.
  - apply (proj1 (absent_or_corrupt_reads_default _)).
    simpl. right. exists "[{". reflexivity.
  - apply (proj1 (proj2 (absent_or_corrupt_reads_default _))).
    exact I.
Defined.

(** ** Progress *)

Section Progress.
Variable tz : Z -> Z.
Variable now : Z.

(** Where the offset from UTC 24 hours ago is the offset now, the instant
    24 hours before now falls on yesterday's date. *)
Lemma yesterday_date :
  tz (now - 86400000) = tz now ->
  toDateString tz (now - 86400000) = yesterday tz now.
Proof.
  intros Hsame. unfold yesterday, toDateString. rewrite Hsame.
  replace (now - 86400000 + tz now) with (now + tz now + (-1) * 86400000)
    by lia.
  rewrite Z.div_add by lia. lia.
Qed.

(** What [markDayComplete] does for a day that is not yet complete. *)
Lemma markDayComplete_fresh w d s :
  completedDays (stored_progress (Available s)) !! day_key w d = None ->
  let p := stored_progress (Available s) in
  let p' :=
    {| currentWeek := (cursor_rule w d (currentWeek p, currentDay p)).1;
       currentDay := (cursor_rule w d (currentWeek p, currentDay p)).2;
       completedDays := <[day_key w d := now]> (completedDays p);
       streak := streak_rule tz now (lastCompletedDate p) (streak p);
       lastCompletedDate := Some now |} in
  markDayComplete tz now w d (Available s)
  = (Ok p', Available (write PROGRESS (Some (Parsed p')) s)).
Proof.
  intros Hfresh p p'. unfold markDayComplete. run_reads.
  fold p. fold p in Hfresh. rewrite Hfresh.
  assert (Hstreak :
    (if decide (toDateString tz <$> lastCompletedDate p
                = Some (toDateString tz now))
     then streak p
     else if decide (toDateString tz <$> lastCompletedDate p
                     = Some (toDateString tz (now - 86400000)))
          then streak p + 1 else 1)
    = streak_rule tz now (lastCompletedDate p) (streak p)).
  { unfold streak_rule.
    destruct (lastCompletedDate p) as [t|]; simpl; [|done].
    repeat case_decide; congruence. }
  rewrite Hstreak.
  assert (Hcursor :
    (if bool_decide (w = currentWeek p) && bool_decide (d = currentDay p)
     then if bool_decide (d < 7) then (currentWeek p, d + 1) else (w + 1, 1)
     else (currentWeek p, currentDay p))
    = cursor_rule w d (currentWeek p, currentDay p)).
  { unfold cursor_rule; simpl.
    repeat (case_bool_decide || case_decide); simpl; simplify_eq;
      try done; lia. }
  subst p'. rewrite <- Hcursor.
  by destruct (if bool_decide (w = currentWeek p)
                  && bool_decide (d = currentDay p)
               then _ else _) as [wa da].
Qed.

Lemma markDayComplete_unavailable w d :
  markDayComplete tz now w d Unavailable = (Throw SecurityError, Unavailable).
Proof.
  unfold markDayComplete. run_reads. simpl. rewrite lookup_empty.
  by destruct (if bool_decide (w = 1) && bool_decide (d = 1) then _ else _).
Qed.

Lemma markDayComplete_done w d ls t :
  completedDays (stored_progress ls) !! day_key w d = Some t ->
  markDayComplete tz now w d ls = (Ok (stored_progress ls), ls).
Proof.
  intros Hdone. unfold markDayComplete. run_reads. by rewrite Hdone.
Qed.

(** X29. Where the zone's offset from UTC is the same now and 24 hours
    before now, [markDayComplete] for a day not yet completed follows the
    calendar: when the last completion fell on today's date the streak is
    unchanged; when it fell on yesterday's date the streak grows by one;
    in every other case (an older or missing last completion) the streak
    becomes 1. *)
Theorem markDayComplete_streak w d s :
  tz (now - 86400000) = tz now ->
  let p := stored_progress (Available s) in
  completedDays p !! day_key w d = None ->
  exists p' ls',
    markDayComplete tz now w d (Available s) = (Ok p', ls')
    /\ stored_progress ls' = p'
    /\ (forall last, lastCompletedDate p = Some last ->
          toDateString tz last = toDateString tz now ->
          streak p' = streak p)
    /\ (forall last, lastCompletedDate p = Some last ->
          toDateString tz last = yesterday tz now ->
          streak p' = streak p + 1)
    /\ ((forall last, lastCompletedDate p = Some last ->
          toDateString tz last <> toDateString tz now
          /\ toDateString tz last <> yesterday tz now) ->
        streak p' = 1).
Proof.
  intros Hsame p Hfresh.
  pose proof (markDayComplete_fresh w d s Hfresh) as Hrun.
  cbv zeta in Hrun. fold p in Hrun. clearbody p.
  eexists _, _. split; [exact Hrun|].
  split; [apply stored_progress_write|].
  simpl. unfold streak_rule. rewrite (yesterday_date Hsame).
  unfold yesterday. repeat split.
  - intros last -> Htoday. by rewrite decide_True.
  - intros last -> Hyesterday.
    rewrite decide_False by lia. by rewrite decide_True.
  - intros Hother. destruct (lastCompletedDate p) as [last|]; [|done].
    destruct (Hother last eq_refl) as [? ?].
    by rewrite !decide_False.
Qed.

(** C4. For a day not yet completed, [markDayComplete] records the
    completion and updates the streak, and moves the cursor only when
    [(week, day)] is the cursor: to the next day when [currentDay < 7],
    else to day 1 of the next week.  Any other [(week, day)] leaves
    [currentWeek] and [currentDay] as they were. *)
Theorem markDayComplete_cursor w d s :
  let p := stored_progress (Available s) in
  completedDays p !! day_key w d = None ->
  exists p' ls',
    markDayComplete tz now w d (Available s) = (Ok p', ls')
    /\ stored_progress ls' = p'
    /\ completedDays p' !! day_key w d = Some now
    /\ streak p' = streak_rule tz now (lastCompletedDate p) (streak p)
    /\ lastCompletedDate p' = Some now
    /\ (w = currentWeek p /\ d = currentDay p -> currentDay p < 7 ->
          currentWeek p' = currentWeek p /\ currentDay p' = currentDay p + 1)
    /\ (w = currentWeek p /\ d = currentDay p -> ~ currentDay p < 7 ->
          currentWeek p' = currentWeek p + 1 /\ currentDay p' = 1)
    /\ (~ (w = currentWeek p /\ d = currentDay p) ->
          currentWeek p' = currentWeek p /\ currentDay p' = currentDay p).
Proof.
  intros p Hfresh.
  pose proof (markDayComplete_fresh w d s Hfresh) as Hrun.
  cbv zeta in Hrun. fold p in Hrun. clearbody p.
  eexists _, _. split; [exact Hrun|].
  split; [apply stored_progress_write|].
  simpl. split; [apply lookup_insert_eq|].
  do 2 (split; [reflexivity|]).
  unfold cursor_rule; simpl.
  split; [|split].
  - intros [-> ->] Hlt. rewrite decide_True by done. by rewrite decide_True.
  - intros [-> ->] Hge. rewrite decide_True by done. by rewrite decide_False.
  - intros Hother. rewrite decide_False; [done|].
    intros [= -> ->]. by apply Hother.
Qed.

(** C8. When [(week, day)] is already in [completedDays],
    [markDayComplete] returns the current progress record and leaves
    storage as it is; and a call that follows a call for the same day
    changes nothing more. *)
Theorem markDayComplete_already_complete w d ls t :
  completedDays (stored_progress ls) !! day_key w d = Some t ->
  markDayComplete tz now w d ls = (Ok (stored_progress ls), ls)
  /\ forall ls0 tz' now',
       markDayComplete tz' now' w d (markDayComplete tz now w d ls0).2
       = markDayComplete tz now w d ls0.
Proof.
  intros Hdone. split; [by eapply markDayComplete_done|].
  intros [|s0] tz' now'.
  { rewrite markDayComplete_unavailable. cbn [snd].
    unfold markDayComplete. run_reads. simpl. rewrite lookup_empty.
    by destruct (if bool_decide (w = 1) && bool_decide (d = 1)
                 then _ else _). }
  destruct (completedDays (stored_progress (Available s0)) !! day_key w d)
    as [t0|] eqn:Hlook.
  - rewrite (markDayComplete_done w d _ t0 Hlook). cbn [snd].
    unfold markDayComplete. run_reads. by rewrite Hlook.
  - rewrite (markDayComplete_fresh w d s0 Hlook). cbv zeta. cbn [snd].
    unfold markDayComplete. run_reads. cbn [completedDays].
    by rewrite lookup_insert_eq.
Qed.
End Progress.

(** C3. Half an hour past midnight on 11 March 2024 in New York, the
    night after the clocks went forward, with the last completion at noon
    on 10 March: the last completion fell on yesterday's date, and
    [markDayComplete] sets the streak to 1 where the specification has it
    grow by one.  The instant 24 hours before now is 23:30 on 9 March,
    which falls on the date before yesterday's. *)
Theorem markDayComplete_streak_spring_forward :
  let now := 1710131400000 in
  completedDays march_10_progress !! day_key 1 2 = None
  /\ lastCompletedDate march_10_progress = Some 1710086400000
  /\ toDateString new_york 1710086400000 = yesterday new_york now
  /\ toDateString new_york (now - 86400000) = yesterday new_york now - 1
  /\ exists p',
       markDayComplete new_york now 1 2 (Available march_10_storage)
       = (Ok p', Available (write PROGRESS (Some (Parsed p')) march_10_storage))
       /\ streak p' = 1
       /\ streak p' <> streak march_10_progress + 1.
Proof.
  cbv zeta. split; [by vm_compute|]. split; [done|].
  split; [by vm_compute|]. split; [by vm_compute|].
  rewrite (markDayComplete_fresh new_york 1710131400000 1 2 march_10_storage)
    by (by vm_compute).
  eexists. split; [reflexivity|]. by vm_compute.
Qed.

Lemma markDayComplete_streak_witness :
  exists p' ls',
    markDayComplete utc 172800000 1 2 (Available two_day_storage) = (Ok p', ls')
    /\ streak p' = 2.
Proof.
  destruct (markDayComplete_streak utc 172800000 1 2 two_day_storage)
    as (p' & ls' & Hrun & _ & _ & Hyesterday & _).
  - reflexivity.
  - vm_compute. reflexivity.
  - exists p', ls'. split; [exact Hrun|].
    apply (Hyesterday 86400000); reflexivity.
Defined.

Lemma markDayComplete_cursor_witness :
  exists p' ls',
    markDayComplete utc 0 1 7
      (Available (write PROGRESS (Some (Parsed week_end_progress)) empty_storage))
    = (Ok p', ls')
    /\ currentWeek p' = 2 /\ currentDay p' = 1.
Proof.
  destruct (markDayComplete_cursor utc 0 1 7
              (write PROGRESS (Some (Parsed week_end_progress)) empty_storage))
    as (p' & ls' & Hrun & _ & _ & _ & _ & _ & Hwrap & _).
  - vm_compute. reflexivity.
  - exists p', ls'. split; [exact Hrun|].
    apply Hwrap; simpl; [split; reflexivity | lia].
Defined.

Lemma markDayComplete_already_complete_witness :
  markDayComplete utc 172800000 1 1 (Available two_day_storage)
  = (Ok two_day_progress, Available two_day_storage).
Proof.
  apply (markDayComplete_already_complete utc 172800000 1 1
           (Available two_day_storage) 86400000).
  vm_compute. reflexivity.
Defined.

(** ** Legacy keys *)

Lemma parseContextFromLegacyKey_parts key :
  match split_dash key with
  | [part0; part1; part2] =>
      parseContextFromLegacyKey key
      = Some {| week := parseInt part0; day := parseInt part1;
                promptIndex := parseInt part2 |}
  | _ => parseContextFromLegacyKey key = None
  end.
Proof.
  unfold parseContextFromLegacyKey.
  by destruct (split_dash key) as [|? [|? [|? [|? ?]]]].
Qed.

(** A key is a reflection key exactly when it has three parts. *)
Lemma parseContextFromLegacyKey_three_parts key :
  is_Some (parseContextFromLegacyKey key) <-> length (split_dash key) = 3%nat.
Proof.
  unfold parseContextFromLegacyKey.
  destruct (split_dash key) as [|? [|? [|? [|? ?]]]]; simpl;
    split; intros H; try done; by destruct H.
Qed.

Lemma pretty_N_char_digit k :
  (k < 10)%N -> digit_value (pretty_N_char k) = Some (Z.of_N k).
Proof.
  intros Hk.
  assert (k = 0 \/ k = 1 \/ k = 2 \/ k = 3 \/ k = 4 \/ k = 5 \/ k = 6
          \/ k = 7 \/ k = 8 \/ k = 9)%N as Hcases by lia.
  repeat (destruct Hcases as [->|Hcases]; [reflexivity|]). by subst.
Qed.

Lemma digit_not_space c : is_Some (digit_value c) -> is_space c = false.
Proof.
  unfold digit_value, is_space. intros [d Hd].
  destruct (Nat.leb 48 (nat_of_ascii c) && Nat.leb (nat_of_ascii c) 57) eqn:H;
    [|done].
  apply andb_true_iff in H as [H1 H2].
  apply Nat.leb_le in H1, H2.
  apply orb_false_iff. split.
  - apply andb_false_iff. right. apply Nat.leb_gt. lia.
  - apply Nat.eqb_neq. lia.
Qed.

Lemma digit_not_sign c :
  is_Some (digit_value c) -> c <> "-"%char /\ c <> "+"%char.
Proof. intros [d Hd]. split; intros ->; discriminate. Qed.

Lemma pretty_N_go_only_digits x s :
  only_digits s = true -> only_digits (pretty_N_go x s) = true.
Proof.
  revert s. induction (N.lt_wf_0 x) as [x _ IH]; intros s Hs.
  destruct (decide (x = 0)%N) as [->|Hpos]; [by rewrite pretty_N_go_0|].
  rewrite pretty_N_go_step by lia. apply IH.
  - apply N.div_lt; lia.
  - simpl. rewrite Hs, andb_true_r. apply bool_decide_eq_true.
    rewrite pretty_N_char_digit; [done|]. apply N.mod_lt. lia.
Qed.

Lemma pretty_N_go_nonempty x s : s <> "" -> pretty_N_go x s <> "".
Proof.
  revert s. induction (N.lt_wf_0 x) as [x _ IH]; intros s Hs.
  destruct (decide (x = 0)%N) as [->|Hpos]; [by rewrite pretty_N_go_0|].
  rewrite pretty_N_go_step by lia. apply IH; [|done].
  apply N.div_lt; lia.
Qed.

Lemma pretty_N_all_digits (n : N) : all_digits (pretty n) = true.
Proof.
  unfold all_digits, pretty, pretty_N. case_decide as Hn; [done|].
  apply andb_true_iff. split.
  - apply negb_true_iff, String.eqb_neq.
    rewrite pretty_N_go_step by lia. by apply pretty_N_go_nonempty.
  - by apply pretty_N_go_only_digits.
Qed.

(** Reading back the digits that [pretty] wrote. *)
Lemma read_digits_pretty_N_go x :
  (0 < x)%N ->
  exists m, forall acc s,
    read_digits acc (pretty_N_go x s)
    = read_digits (Some (default 0 acc * m + Z.of_N x)) s.
Proof.
  induction (N.lt_wf_0 x) as [x _ IH]; intros Hpos.
  pose proof (N.div_mod x 10 ltac:(lia)) as Hx.
  destruct (decide (x `div` 10 = 0)%N) as [Hsmall|Hbig].
  - exists 10. intros acc s. rewrite pretty_N_go_step by done.
    rewrite Hsmall, pretty_N_go_0. simpl.
    rewrite pretty_N_char_digit by (apply N.mod_lt; lia).
    rewrite Hsmall in Hx. rewrite Hx at 2.
    match goal with
    | |- read_digits (Some ?a) _ = read_digits (Some ?b) _ =>
        assert (a = b) as Heq; [|by rewrite Heq]
    end.
    remember (x `mod` 10)%N as r. lia.
  - destruct (IH (x `div` 10)%N) as [m Hm].
    { apply N.div_lt; lia. }
    { by apply N.neq_0_lt_0. }
    exists (10 * m). intros acc s. rewrite pretty_N_go_step by done.
    rewrite Hm. simpl.
    rewrite pretty_N_char_digit by (apply N.mod_lt; lia).
    match goal with
    | |- read_digits (Some ?a) _ = read_digits (Some ?b) _ =>
        assert (a = b) as Heq; [|by rewrite Heq]
    end.
    remember (x `div` 10)%N as q. remember (x `mod` 10)%N as r. lia.
Qed.

Lemma read_digits_pretty (n : N) :
  read_digits None (pretty n) = Some (Z.of_N n).
Proof.
  unfold pretty, pretty_N. case_decide as Hn; [by subst|].
  destruct (read_digits_pretty_N_go n) as [m Hm]; [lia|].
  by rewrite Hm.
Qed.

Lemma read_digits_only_digits s acc :
  only_digits s = true -> exists n, read_digits (Some acc) s = Some n.
Proof.
  revert acc. induction s as [|c rest IH]; intros acc Hd; [by exists acc|].
  simpl in *. apply andb_true_iff in Hd as [Hc Hrest].
  apply bool_decide_eq_true in Hc as [d Hd]. rewrite Hd. by apply IH.
Qed.

(** A run of digits is read as it stands. *)
Lemma parseInt_all_digits s :
  all_digits s = true ->
  exists n, read_digits None s = Some n /\ parseInt s = Num n.
Proof.
  unfold all_digits. intros H. apply andb_true_iff in H as [Hne Hdigits].
  destruct s as [|c rest]; [done|]. clear Hne.
  pose proof Hdigits as Hall.
  simpl in Hdigits. apply andb_true_iff in Hdigits as [Hc Hrest].
  apply bool_decide_eq_true in Hc.
  destruct (digit_not_sign c Hc) as [Hminus Hplus].
  assert (exists n, read_digits None (String c rest) = Some n) as [n Hn].
  { destruct Hc as [d Hd]. simpl. rewrite Hd.
    by apply read_digits_only_digits. }
  exists n. split; [done|].
  unfold parseInt. simpl trimStart. rewrite (digit_not_space c Hc).
  destruct c as [[] [] [] [] [] [] [] []]; try done; by rewrite Hn.
Qed.

Lemma parseInt_pretty (n : N) : parseInt (pretty n) = Num (Z.of_N n).
Proof.
  destruct (parseInt_all_digits _ (pretty_N_all_digits n)) as (m & Hread & ->).
  rewrite read_digits_pretty in Hread. congruence.
Qed.

Lemma split_dash_only_digits s :
  only_digits s = true -> split_dash s = [s].
Proof.
  induction s as [|c rest IH]; [done|]. simpl. intros Hd.
  apply andb_true_iff in Hd as [Hc Hrest]. apply bool_decide_eq_true in Hc.
  destruct (digit_not_sign c Hc) as [Hminus _].
  destruct (Ascii.eqb_spec c "-"); [done|]. by rewrite IH.
Qed.

Lemma split_dash_after_digits s rest :
  only_digits s = true ->
  split_dash (s +:+ "-" +:+ rest) = s :: split_dash rest.
Proof.
  induction s as [|c s IH]; [done|]. simpl. intros Hd.
  apply andb_true_iff in Hd as [Hc Hs]. apply bool_decide_eq_true in Hc.
  destruct (digit_not_sign c Hc) as [Hminus _].
  destruct (Ascii.eqb_spec c "-"); [done|].
  change (s ++ String "-" rest) with (s +:+ "-" +:+ rest).
  by rewrite IH.
Qed.

(** The keys the legacy format intends: ["week-day-promptIndex"]. *)
Lemma parseContextFromLegacyKey_numbers (w d p : N) :
  parseContextFromLegacyKey (pretty w +:+ "-" +:+ pretty d +:+ "-" +:+ pretty p)
  = Some {| week := Num (Z.of_N w); day := Num (Z.of_N d);
            promptIndex := Num (Z.of_N p) |}.
Proof.
  pose proof (pretty_N_all_digits w) as Hw.
  pose proof (pretty_N_all_digits d) as Hd.
  pose proof (pretty_N_all_digits p) as Hp.
  unfold all_digits in *.
  apply andb_true_iff in Hw as [_ Hw], Hd as [_ Hd], Hp as [_ Hp].
  unfold parseContextFromLegacyKey.
  rewrite (split_dash_after_digits _ _ Hw), (split_dash_after_digits _ _ Hd),
    (split_dash_only_digits _ Hp).
  by rewrite !parseInt_pretty.
Qed.

(** A key of the specification's pattern is a reflection key, and its
    context holds numbers. *)
Lemma numeric_key_context key :
  numeric_key key = true ->
  exists w d p,
    parseContextFromLegacyKey key
    = Some {| week := Num w; day := Num d; promptIndex := Num p |}.
Proof.
  unfold numeric_key, parseContextFromLegacyKey.
  destruct (split_dash key) as [|a [|b [|c [|? ?]]]]; try done.
  intros H. apply andb_true_iff in H as [H Hc].
  apply andb_true_iff in H as [Ha Hb].
  destruct (parseInt_all_digits a Ha) as (w & _ & ->).
  destruct (parseInt_all_digits b Hb) as (d & _ & ->).
  destruct (parseInt_all_digits c Hc) as (p & _ & ->).
  by exists w, d, p.
Qed.

(** ** Migration *)

Lemma read_migrated_storage raw entries s :
  read LEGACY_JOURNALS (migrated_storage raw entries s) = None
  /\ read LEGACY_JOURNALS_ARCHIVED (migrated_storage raw entries s) = Some raw
  /\ stored_entries (Available (migrated_storage raw entries s))
     = (stored_entries (Available s) ++ entries)%list.
Proof. by destruct s. Qed.

Lemma preserve_timestamps_keeps value entry entry' :
  preserve_timestamps value entry = Ok entry' ->
  id entry' = id entry /\ type entry' = type entry
  /\ content entry' = content entry /\ prompt entry' = prompt entry
  /\ context entry' = context entry.
Proof.
  unfold preserve_timestamps, rbind.
  repeat (case_match; simplify_eq/=; try done); intros; by simplify_eq/=.
Qed.

Section Migration.
Variable uuids : nat -> string.
Variable now : string.

Lemma migrateFromLegacy_absent ls :
  match ls with
  | Unavailable => False
  | Available s => present (read LEGACY_JOURNALS s) = false
  end ->
  migrateFromLegacy uuids now ls
  = (Ok {| migrated := false; count := 0; error := None |}, ls).
Proof.
  destruct ls as [|s]; [done|]. intros Habsent.
  unfold migrateFromLegacy, bind, getItem.
  destruct (read LEGACY_JOURNALS s) as [raw|]; [|reflexivity].
  by rewrite Habsent.
Qed.

(** The three ways a call that finds a legacy record can end. *)
Lemma migrateFromLegacy_present s raw :
  read LEGACY_JOURNALS s = Some raw ->
  present (Some raw) = true ->
  migrateFromLegacy uuids now (Available s)
  = match converted uuids now raw with
    | Throw e =>
        (Ok {| migrated := false; count := 0; error := Some e |},
         Available s)
    | Ok [] =>
        (Ok {| migrated := true; count := 0; error := None |}, Available s)
    | Ok entries =>
        (Ok {| migrated := true; count := length entries; error := None |},
         Available (migrated_storage raw entries s))
    end.
Proof.
  intros Hread Hpresent.
  unfold migrateFromLegacy, bind, getItem. rewrite Hread, Hpresent. simpl.
  unfold try_catch, converted, lift, rbind.
  destruct (JSON_parse raw) as [parsed|e]; [|reflexivity].
  destruct (Object_entries parsed) as [pairs|e]; [|reflexivity].
  destruct (migrate_loop uuids now pairs []) as [[|entry entries]|e];
    [reflexivity| |reflexivity].
  simpl. rewrite getAllEntries_reads. reflexivity.
Qed.

(** Whatever the loop raises is a [TypeError]. *)
Lemma migrate_pair_throws entries kv e :
  migrate_pair uuids now entries kv = Throw e -> e = TypeError.
Proof.
  destruct kv as [key value]. unfold migrate_pair, legacy_content,
    legacy_prompt, preserve_timestamps, rbind, get_prop.
  destruct value as [|b|z|text|items|props]; simpl;
    repeat (case_match; simplify_eq/=; try done); congruence.
Qed.

Lemma migrate_loop_null pairs key entries :
  In (key, JNull) pairs ->
  migrate_loop uuids now pairs entries = Throw TypeError.
Proof.
  revert entries. induction pairs as [|kv rest IH]; intros entries Hin.
  - destruct Hin.
  - simpl.
    destruct (migrate_pair uuids now entries kv) as [entries'|e] eqn:Hpair.
    + simpl. destruct Hin as [->|Hin]; [done|]. by apply IH.
    + simpl. by rewrite (migrate_pair_throws _ _ _ Hpair).
Qed.

Lemma migrate_pair_ok entries kv entries' :
  migrate_pair uuids now entries kv = Ok entries' ->
  (kept kv = false /\ entries' = entries)
  \/ (kept kv = true
      /\ exists entry, entries' = (entries ++ [entry])%list
                       /\ migrated_from kv entry).
Proof.
  destruct kv as [key value]. unfold migrate_pair, kept; simpl.
  destruct (legacy_content value) as [c|e] eqn:Hcontent; simpl; [|done].
  destruct (legacy_prompt value) as [pr|e]; simpl; [|done].
  destruct c as [|b|z|text|items|props]; try done.
  destruct (String.eqb (trim text) ""); simpl.
  { intros [= <-]. by left. }
  destruct (preserve_timestamps value _) as [entry'|e] eqn:Hstamp; simpl;
    [|done].
  intros [= <-]. right. split; [done|]. exists entry'. split; [done|].
  apply preserve_timestamps_keeps in Hstamp as (_ & Htype & Hcont & _ & Hctx).
  simpl in *. unfold migrated_from; simpl. rewrite Hcont. split; [done|].
  rewrite Htype, Hctx.
  pose proof (parseContextFromLegacyKey_parts key) as Hparts.
  destruct (split_dash key) as [|? [|? [|? [|? ?]]]];
    rewrite Hparts; by simpl.
Qed.

Lemma migrate_loop_ok pairs entries entries' :
  migrate_loop uuids now pairs entries = Ok entries' ->
  exists news,
    entries' = (entries ++ news)%list
    /\ Forall2 migrated_from (List.filter kept pairs) news.
Proof.
  revert entries. induction pairs as [|kv rest IH]; intros entries; simpl.
  - intros [= <-]. exists []. split; [by rewrite app_nil_r | constructor].
  - destruct (migrate_pair uuids now entries kv) as [mid|e] eqn:Hpair;
      [|done].
    simpl. intros Hrest. apply IH in Hrest as (news & -> & Hnews).
    apply migrate_pair_ok in Hpair as [[-> ->]|(-> & entry & -> & Hentry)].
    + by exists news.
    + exists (entry :: news). split; [by rewrite <- app_assoc|].
      by constructor.
Qed.

(** C5. When the stored legacy record does not parse,
    [migrateFromLegacy] returns [{migrated: false, count: 0, error}] and
    storage is exactly as before: entries, legacy key and archive key. *)
Theorem migrateFromLegacy_parse_failure s raw :
  read LEGACY_JOURNALS s = Some raw ->
  present (Some raw) = true ->
  (forall parsed, JSON_parse raw <> Ok parsed) ->
  migrateFromLegacy uuids now (Available s)
  = (Ok {| migrated := false; count := 0; error := Some SyntaxError |},
     Available s).
Proof.
  intros Hread Hpresent Hfail.
  rewrite (migrateFromLegacy_present s raw Hread Hpresent).
  unfold converted. destruct raw as [text|parsed]; [reflexivity|].
  by destruct (Hfail parsed).
Qed.

(** C10. A parseable legacy record with a [null] value aborts the whole
    migration: the result is [{migrated: false, count: 0, error}], none
    of the sibling entries is migrated, and the entry collection and the
    legacy key stay as they were. *)
Theorem migrateFromLegacy_null_value_aborts s record pairs key :
  read LEGACY_JOURNALS s = Some (Parsed record) ->
  Object_entries record = Ok pairs ->
  In (key, JNull) pairs ->
  migrateFromLegacy uuids now (Available s)
  = (Ok {| migrated := false; count := 0; error := Some TypeError |},
     Available s).
Proof.
  intros Hread Hpairs Hnull.
  rewrite (migrateFromLegacy_present s _ Hread eq_refl).
  unfold converted; simpl. rewrite Hpairs; simpl.
  by rewrite (migrate_loop_null pairs key []).
Qed.

(** C1, as the code has it.  When at least one entry is migrated from a
    parseable legacy record, [migrateFromLegacy] archives the raw record
    under the archive key and removes the legacy key; an immediately
    following call returns [{migrated: false, count: 0}] and leaves
    storage, hence the entry collection, untouched. *)
Theorem migrateFromLegacy_archives_when_migrated s record r ls' :
  read LEGACY_JOURNALS s = Some (Parsed record) ->
  migrateFromLegacy uuids now (Available s) = (Ok r, ls') ->
  (0 < count r)%nat ->
  exists s',
    ls' = Available s'
    /\ read LEGACY_JOURNALS_ARCHIVED s' = Some (Parsed record)
    /\ read LEGACY_JOURNALS s' = None
    /\ forall uuids' now',
         migrateFromLegacy uuids' now' ls'
         = (Ok {| migrated := false; count := 0; error := None |}, ls').
Proof.
  intros Hread Hrun Hcount.
  rewrite (migrateFromLegacy_present s _ Hread eq_refl) in Hrun.
  destruct (converted uuids now (Parsed record)) as [[|entry entries]|e];
    simplify_eq/=; try lia.
  eexists. split; [reflexivity|].
  destruct (read_migrated_storage (Parsed record) (entry :: entries) s)
    as (Hlegacy & Harchive & _).
  split; [exact Harchive|]. split; [exact Hlegacy|].
  intros uuids' now'.
  unfold migrateFromLegacy, bind, getItem. by rewrite Hlegacy.
Qed.

(** C2, as the code has it.  When [migrateFromLegacy] raises no error on
    a parseable legacy record, the entries it appends correspond one to
    one, in order, to the pairs whose extracted content is not blank;
    blank pairs are dropped and not counted.  Each entry is a reflection,
    with the numbers read from the three parts as context, exactly when
    its key has three parts between dashes, and otherwise a free entry
    with no context. *)
Theorem migrateFromLegacy_classifies s record r ls' :
  read LEGACY_JOURNALS s = Some (Parsed record) ->
  migrateFromLegacy uuids now (Available s) = (Ok r, ls') ->
  error r = None ->
  exists pairs news,
    Object_entries record = Ok pairs
    /\ stored_entries ls' = (stored_entries (Available s) ++ news)%list
    /\ count r = length news
    /\ Forall2 migrated_from (List.filter kept pairs) news.
Proof.
  intros Hread Hrun Hok.
  rewrite (migrateFromLegacy_present s _ Hread eq_refl) in Hrun.
  unfold converted in Hrun; simpl in Hrun.
  destruct (Object_entries record) as [pairs|e]; simpl in Hrun;
    [|by simplify_eq/=].
  destruct (migrate_loop uuids now pairs []) as [entries|e] eqn:Hloop;
    [|by simplify_eq/=].
  apply migrate_loop_ok in Hloop as (news & Heq & Hnews).
  simpl in Heq. subst entries.
  exists pairs, news. split; [done|].
  destruct news as [|entry news]; injection Hrun as <- <-.
  - split; [|done]. by rewrite app_nil_r.
  - split; [|done].
    by destruct (read_migrated_storage (Parsed record) (entry :: news) s)
      as (_ & _ & ->).
Qed.
End Migration.

Lemma migrateFromLegacy_parse_failure_witness :
  migrateFromLegacy sample_uuids "2024-01-01T00:00:00.000Z"
    (Available corrupt_legacy_storage)
  = (Ok {| migrated := false; count := 0; error := Some SyntaxError |},
     Available corrupt_legacy_storage).
Proof.
  apply (migrateFromLegacy_parse_failure sample_uuids _ corrupt_legacy_storage
           (Corrupt "{not json")).
  - reflexivity.
  - reflexivity.
  - intros parsed. simpl. discriminate.
Defined.

Lemma migrateFromLegacy_null_value_aborts_witness :
  migrateFromLegacy sample_uuids "2024-01-01T00:00:00.000Z"
    (with_legacy null_value_record)
  = (Ok {| migrated := false; count := 0; error := Some TypeError |},
     with_legacy null_value_record)
  /\ stored_entries (with_legacy null_value_record) = [].
Proof.
  split; [|reflexivity].
  apply (migrateFromLegacy_null_value_aborts sample_uuids _ _
           null_value_record
           [("1-2-0", JStr "hello"); ("note", JStr "world"); ("1-3-0", JNull)]
           "1-3-0").
  - reflexivity.
  - reflexivity.
  - simpl. right. right. left. reflexivity.
Defined.

Lemma migrateFromLegacy_archives_when_migrated_witness :
  exists s',
    read LEGACY_JOURNALS_ARCHIVED s' = Some (Parsed hello_record)
    /\ read LEGACY_JOURNALS s' = None
    /\ length (stored_entries (Available s')) = 2%nat
    /\ migrateFromLegacy sample_uuids "2024-01-02T00:00:00.000Z" (Available s')
       = (Ok {| migrated := false; count := 0; error := None |}, Available s').
Proof.
  destruct (migrateFromLegacy_archives_when_migrated
              sample_uuids "2024-01-01T00:00:00.000Z"
              (write LEGACY_JOURNALS (Some (Parsed hello_record)) empty_storage)
              hello_record
              {| migrated := true; count := 2; error := None |}
              (snd (migrateFromLegacy sample_uuids "2024-01-01T00:00:00.000Z"
                      (with_legacy hello_record))))
    as (s' & Hls' & Harchive & Hlegacy & Hagain).
  - reflexivity.
  - vm_compute. reflexivity.
  - simpl. lia.
  - exists s'. repeat split; try done.
    + rewrite <- Hls'. vm_compute. reflexivity.
    + rewrite <- Hls'. apply Hagain.
Defined.

(** C1 fails as stated: a parseable record whose only entry is blank is
    neither archived nor removed, and the second call reports
    [migrated: true] again. *)
Lemma migrateFromLegacy_blank_record_stays :
  migrateFromLegacy sample_uuids "2024-01-01T00:00:00.000Z"
    (with_legacy blank_record)
  = (Ok {| migrated := true; count := 0; error := None |},
     with_legacy blank_record)
  /\ read LEGACY_JOURNALS_ARCHIVED
       (write LEGACY_JOURNALS (Some (Parsed blank_record)) empty_storage) = None
  /\ read LEGACY_JOURNALS
       (write LEGACY_JOURNALS (Some (Parsed blank_record)) empty_storage)
     = Some (Parsed blank_record)
  /\ migrateFromLegacy sample_uuids "2024-01-01T00:00:01.000Z"
       (migrateFromLegacy sample_uuids "2024-01-01T00:00:00.000Z"
          (with_legacy blank_record)).2
     = (Ok {| migrated := true; count := 0; error := None |},
        with_legacy blank_record).
Proof. repeat split; reflexivity. Qed.

Lemma migrateFromLegacy_classifies_witness :
  exists news,
    stored_entries
      (migrateFromLegacy sample_uuids "2024-01-01T00:00:00.000Z"
         (with_legacy mixed_record)).2 = news
    /\ Forall2 migrated_from
         [("1-2-0", JStr "hello"); ("note", JStr "world")] news.
Proof.
  destruct (migrateFromLegacy_classifies
              sample_uuids "2024-01-01T00:00:00.000Z"
              (write LEGACY_JOURNALS (Some (Parsed mixed_record)) empty_storage)
              mixed_record
              {| migrated := true; count := 2; error := None |}
              (migrateFromLegacy sample_uuids "2024-01-01T00:00:00.000Z"
                 (with_legacy mixed_record)).2)
    as (pairs & news & Hpairs & Hstored & _ & Hnews).
  - reflexivity.
  - vm_compute. reflexivity.
  - reflexivity.
  - exists news. split; [exact Hstored|].
    injection Hpairs as <-. exact Hnews.
Defined.

(** C2 fails as stated: the key [a-b-c] has no numeric component, yet its
    entry is a reflection with a context; and beside a [null] value the
    pair ["1-2-0": "hello"], whose content is not blank, contributes no
    entry. *)
Lemma migrateFromLegacy_reflection_without_numbers :
  numeric_key "a-b-c" = false
  /\ migrateFromLegacy sample_uuids "2024-01-01T00:00:00.000Z"
       (with_legacy letters_record)
     = (Ok {| migrated := true; count := 1; error := None |},
        Available
          (migrated_storage (Parsed letters_record)
             [{| id := "uuid-0"; type := reflection; content := "x";
                 prompt := JStr "";
                 context := Some {| week := NaN; day := NaN;
                                    promptIndex := NaN |};
                 createdAt := JStr "2024-01-01T00:00:00.000Z";
                 updatedAt := JStr "2024-01-01T00:00:00.000Z" |}]
             (write LEGACY_JOURNALS (Some (Parsed letters_record))
                empty_storage)))
  /\ kept ("1-2-0", JStr "hello") = true
  /\ stored_entries
       (migrateFromLegacy sample_uuids "2024-01-01T00:00:00.000Z"
          (with_legacy null_value_record)).2 = [].
Proof. repeat split; reflexivity. Qed.

(** ** The entry store *)

Lemma saveEntry_available entry s :
  saveEntry entry (Available s)
  = (Ok entry,
     Available (write ENTRIES
       (Some (Parsed (stored_entries (Available s) ++ [entry])%list)) s)).
Proof. unfold saveEntry. by run_reads. Qed.

Lemma updateEntry_unknown now i updates ls :
  list_find (fun entry => id entry = i) (stored_entries ls) = None ->
  updateEntry now i updates ls = (Ok None, ls).
Proof. intros Hnone. unfold updateEntry. run_reads. by rewrite Hnone. Qed.

Lemma updateEntry_found now i updates s index found :
  list_find (fun entry => id entry = i) (stored_entries (Available s))
  = Some (index, found) ->
  updateEntry now i updates (Available s)
  = (Ok (Some (merge found updates now)),
     Available (write ENTRIES
       (Some (Parsed (<[index := merge found updates now]>
                        (stored_entries (Available s))))) s)).
Proof. intros Hfound. unfold updateEntry. run_reads. by rewrite Hfound. Qed.

Lemma deleteEntry_available i s :
  deleteEntry i (Available s)
  = let entries := stored_entries (Available s) in
    let filteredEntries := filter (fun entry => id entry <> i) entries in
    if Nat.eqb (length filteredEntries) (length entries)
    then (Ok false, Available s)
    else (Ok true, Available (write ENTRIES (Some (Parsed filteredEntries)) s)).
Proof.
  unfold deleteEntry. run_reads. cbv zeta. by destruct (Nat.eqb _ _).
Qed.

(** With distinct ids, looking an id up finds the entry that carries it. *)
Lemma list_find_id entries entry :
  NoDup (id <$> entries) ->
  entry ∈ entries ->
  exists index,
    list_find (fun e => id e = id entry) entries = Some (index, entry).
Proof.
  intros Hnodup Hin.
  destruct (list_find_elem_of (fun e => id e = id entry) entries entry Hin eq_refl)
    as [[index found] Hfind].
  exists index. rewrite Hfind. f_equal. f_equal.
  apply list_find_Some in Hfind as (Hlook & Hid & _).
  apply list_elem_of_lookup in Hin as [k Hk].
  assert (index = k) as ->; [|congruence].
  eapply NoDup_lookup; [exact Hnodup| |].
  - rewrite list_lookup_fmap, Hlook. simpl. by rewrite Hid.
  - by rewrite list_lookup_fmap, Hk.
Qed.

(** C7. For a stored entry with the given id, [updateEntry(id, {content: X})]
    puts [X] in place, stamps [updatedAt] with the reading of the clock at
    the time of the call, whatever [createdAt] is, and keeps [id], [type],
    [context] and [createdAt]; so [updatedAt >= createdAt] holds exactly
    when [createdAt] is not later than that reading.  For an id that no
    stored entry carries it returns [null], leaves storage as it is and
    raises nothing. *)
Theorem updateEntry_content now ls :
  (forall entry X,
     entry ∈ stored_entries ls ->
     NoDup (id <$> stored_entries ls) ->
     exists entry' ls' index,
       updateEntry now (id entry) (content_only X) ls = (Ok (Some entry'), ls')
       /\ stored_entries ls !! index = Some entry
       /\ stored_entries ls' = <[index := entry']> (stored_entries ls)
       /\ content entry' = X
       /\ updatedAt entry' = JStr now
       /\ id entry' = id entry
       /\ type entry' = type entry
       /\ context entry' = context entry
       /\ createdAt entry' = createdAt entry
       /\ (stamp_le (createdAt entry') (updatedAt entry')
           <-> stamp_le (createdAt entry) (JStr now)))
  /\ (forall i updates,
        (forall entry, entry ∈ stored_entries ls -> id entry <> i) ->
        updateEntry now i updates ls = (Ok None, ls)).
Proof.
  split.
  - intros entry X Hin Hnodup.
    destruct (list_find_id _ _ Hnodup Hin) as [index Hfind].
    destruct ls as [|s]; [by apply elem_of_nil in Hin|].
    rewrite (updateEntry_found now _ (content_only X) s index entry Hfind).
    eexists _, _, index. split; [reflexivity|].
    apply list_find_Some in Hfind as (Hlook & _ & _).
    rewrite stored_entries_write. simpl.
    repeat split; done.
  - intros i updates Hnone. apply updateEntry_unknown.
    apply list_find_None, Forall_forall. intros entry Hin.
    by apply Hnone.
Qed.

Lemma updateEntry_content_witness :
  (exists entry' ls',
     updateEntry "2024-01-02T00:00:00.000Z" "uuid-a" (content_only "second")
       (Available one_entry_storage) = (Ok (Some entry'), ls')
     /\ content entry' = "second"
     /\ createdAt entry' = JStr "2024-01-01T00:00:00.000Z")
  /\ updateEntry "2024-01-02T00:00:00.000Z" "uuid-b" (content_only "second")
       (Available one_entry_storage)
     = (Ok None, Available one_entry_storage).
Proof.
  destruct (updateEntry_content "2024-01-02T00:00:00.000Z"
              (Available one_entry_storage)) as [Hknown Hunknown].
  split.
  - destruct (Hknown first_entry "second")
      as (entry' & ls' & index & Hrun & _ & _ & Hcontent & _ & _ & _ & _
          & Hcreated & _).
    + simpl. apply list_elem_of_here.
    + simpl. apply NoDup_singleton.
    + exists entry', ls'. split; [exact Hrun|]. split; [exact Hcontent|].
      exact Hcreated.
  - apply Hunknown. simpl. intros entry Hin.
    apply list_elem_of_singleton in Hin as ->. discriminate.
Defined.

(** With the clock one second behind the creation time of the stored
    entry, [updateEntry(id, {content: X})] stamps an [updatedAt] that is
    earlier than [createdAt]. *)
Lemma updateEntry_clock_behind :
  first_entry ∈ stored_entries (Available one_entry_storage)
  /\ exists entry' ls',
       updateEntry "2023-12-31T23:59:59.000Z" (id first_entry)
         (content_only "second") (Available one_entry_storage)
       = (Ok (Some entry'), ls')
       /\ createdAt entry' = JStr "2024-01-01T00:00:00.000Z"
       /\ updatedAt entry' = JStr "2023-12-31T23:59:59.000Z"
       /\ ~ stamp_le (createdAt entry') (updatedAt entry').
Proof.
  split; [apply list_elem_of_here|].
  eexists _, _. split; [reflexivity|]. simpl.
  split; [done|]. split; [done|]. by vm_compute.
Qed.

(** *** Entries per context *)

Lemma strict_eq_true a b : strict_eq a b = true -> a = b.
Proof.
  destruct a, b; simpl; try done. intros H. apply bool_decide_eq_true in H.
  by subst.
Qed.

Lemma context_is_true w d p entry :
  context_is w d p entry = true ->
  exists c, context entry = Some c /\ week c = w /\ day c = d /\ promptIndex c = p.
Proof.
  unfold context_is. destruct (context entry) as [c|]; [|done].
  intros H. apply andb_true_iff in H as [H Hp].
  apply andb_true_iff in H as [Hw Hd].
  exists c. by rewrite (strict_eq_true _ _ Hw), (strict_eq_true _ _ Hd),
    (strict_eq_true _ _ Hp).
Qed.

Lemma find_none_filter {A} (f : A -> bool) (l : list A) :
  find f l = None -> filter (fun x => f x = true) l = [].
Proof.
  intros Hnone. induction l as [|x l IH]; [done|]. simpl in Hnone.
  destruct (f x) eqn:Hx; [done|].
  rewrite filter_cons_False by congruence. by apply IH.
Qed.

Section Uniqueness.
Variables w d p : number.

Let carries (entry : Entry) : Prop := context_is w d p entry = true.

Lemma filter_context_fmap (entries : list Entry) :
  length (filter carries entries)
  = length (filter (fun c : option Context =>
      match c with
      | Some c => strict_eq (week c) w && strict_eq (day c) d
                  && strict_eq (promptIndex c) p
      | None => false
      end = true) (context <$> entries)).
Proof.
  induction entries as [|entry entries IH]; [done|].
  rewrite fmap_cons. unfold carries, context_is at 1.
  destruct (decide (match context entry with
                    | Some c => strict_eq (week c) w && strict_eq (day c) d
                                && strict_eq (promptIndex c) p
                    | None => false
                    end = true)) as [Hyes|Hno].
  - rewrite !filter_cons_True by done. simpl. by rewrite <- IH.
  - rewrite !filter_cons_False by done. by rewrite <- IH.
Qed.

Lemma unique_contexts_find entries :
  unique_contexts entries ->
  match find (context_is w d p) entries with
  | Some entry =>
      entry ∈ entries /\ context_is w d p entry = true
      /\ forall other, other ∈ entries -> context_is w d p other = true ->
                       other = entry
  | None => forall other, other ∈ entries -> context_is w d p other = false
  end.
Proof.
  intros Huniq.
  destruct (find (context_is w d p) entries) as [entry|] eqn:Hfind.
  - apply find_some in Hfind as [Hin Hmatch].
    apply list_elem_of_In in Hin. repeat split; try done.
    intros other Hother Hmatch'. specialize (Huniq w d p).
    assert (Hboth : entry ∈ filter carries entries
                    /\ other ∈ filter carries entries)
      by (split; by apply list_elem_of_filter).
    fold carries in Huniq.
    destruct (filter carries entries) as [|x [|y rest]]; simpl in Huniq;
      [| |lia].
    + destruct Hboth as [Hnil _]. by apply elem_of_nil in Hnil.
    + destruct Hboth as [H1 H2].
      apply list_elem_of_singleton in H1, H2. congruence.
  - intros other Hother. apply (find_none _ _ Hfind).
    by apply list_elem_of_In.
Qed.
End Uniqueness.

Lemma unique_contexts_snoc entries entry :
  unique_contexts entries ->
  (forall c, context entry = Some c ->
     find (context_is (week c) (day c) (promptIndex c)) entries = None) ->
  unique_contexts (entries ++ [entry]).
Proof.
  intros Huniq Hguard w d p. rewrite filter_app, length_app.
  destruct (context_is w d p entry) eqn:Hmatch.
  - apply context_is_true in Hmatch as (c & Hc & <- & <- & <-).
    rewrite (find_none_filter _ _ (Hguard c Hc)).
    pose proof (length_filter
      (fun e => context_is (week c) (day c) (promptIndex c) e = true) [entry]).
    simpl in *. lia.
  - rewrite (filter_cons_False _ entry) by congruence.
    rewrite filter_nil. specialize (Huniq w d p). simpl. lia.
Qed.

Lemma unique_contexts_same entries entries' :
  context <$> entries' = context <$> entries ->
  unique_contexts entries -> unique_contexts entries'.
Proof.
  intros Hsame Huniq w d p.
  rewrite filter_context_fmap, Hsame, <- filter_context_fmap. apply Huniq.
Qed.

Lemma unique_contexts_filter (P : Entry -> Prop) `{!forall e, Decision (P e)}
    entries :
  unique_contexts entries -> unique_contexts (filter P entries).
Proof.
  intros Huniq w d p. specialize (Huniq w d p).
  rewrite list_filter_filter.
  rewrite (list_filter_iff _ (fun e => P e /\ context_is w d p e = true))
    by tauto.
  rewrite <- list_filter_filter.
  etrans; [apply length_filter | exact Huniq].
Qed.

Lemma disciplined_step_unique ls ls' :
  disciplined_step ls ls' ->
  unique_contexts (stored_entries ls) -> unique_contexts (stored_entries ls').
Proof.
  intros [entry ls0 Hguard|now i X ls0|i ls0] Huniq.
  - destruct ls0 as [|s]; [done|].
    rewrite saveEntry_available. cbn [snd]. rewrite stored_entries_write.
    apply unique_contexts_snoc; [done|].
    intros c Hc. specialize (Hguard c Hc).
    rewrite getEntryByContext_reads in Hguard. simpl in Hguard.
    by injection Hguard.
  - destruct (list_find (fun entry => id entry = i) (stored_entries ls0))
      as [[index found]|] eqn:Hfind.
    + destruct ls0 as [|s]; [done|].
      rewrite (updateEntry_found now i _ s index found Hfind).
      cbn [snd]. rewrite stored_entries_write.
      apply list_find_Some in Hfind as (Hlook & _ & _).
      eapply unique_contexts_same; [|exact Huniq].
      rewrite list_fmap_insert. apply list_insert_id.
      by rewrite list_lookup_fmap, Hlook.
    + by rewrite (updateEntry_unknown now i _ ls0 Hfind).
  - destruct ls0 as [|s]; [done|].
    rewrite deleteEntry_available. cbv zeta.
    destruct (Nat.eqb _ _); cbn [snd]; [done|].
    rewrite stored_entries_write. by apply unique_contexts_filter.
Qed.

(** C6, as the code has it.  The store does not keep entries apart by
    context on its own.  Starting from a collection with at most one entry
    per context triple, any run of saves made only when [getEntryByContext]
    finds no entry for the saved context, content-only updates and removals
    keeps at most one entry per triple; [getEntryByContext] then returns
    the one entry carrying the triple, or nothing when none does. *)
Theorem disciplined_store_unique_context ls0 ls :
  unique_contexts (stored_entries ls0) ->
  rtc disciplined_step ls0 ls ->
  unique_contexts (stored_entries ls)
  /\ forall w d p,
       exists found,
         getEntryByContext w d p ls = (Ok found, ls)
         /\ match found with
            | Some entry =>
                entry ∈ stored_entries ls
                /\ context_is w d p entry = true
                /\ forall other, other ∈ stored_entries ls ->
                     context_is w d p other = true -> other = entry
            | None =>
                forall other, other ∈ stored_entries ls ->
                  context_is w d p other = false
            end.
Proof.
  intros Huniq Hrun.
  assert (Hkept : unique_contexts (stored_entries ls)).
  { induction Hrun as [|ls1 ls2 ls3 Hstep _ IH]; [done|].
    apply IH. by eapply disciplined_step_unique. }
  split; [done|]. intros w d p.
  exists (find (context_is w d p) (stored_entries ls)).
  split; [apply getEntryByContext_reads|].
  by apply unique_contexts_find.
Qed.

Lemma disciplined_store_unique_context_witness :
  exists found,
    getEntryByContext (Num 1) (Num 1) (Num 1)
      (saveEntry second_entry (saveEntry first_entry (Available empty_storage)).2).2
    = (Ok found,
       (saveEntry second_entry (saveEntry first_entry (Available empty_storage)).2).2)
    /\ found = Some second_entry.
Proof.
  destruct (disciplined_store_unique_context (Available empty_storage)
              (saveEntry second_entry
                 (saveEntry first_entry (Available empty_storage)).2).2)
    as [_ Hfind].
  - intros w d p. simpl. lia.
  - eapply rtc_l; [apply (disciplined_save first_entry)|].
    { intros c Hc. reflexivity. }
    eapply rtc_l; [apply (disciplined_save second_entry)|].
    { intros c Hc. injection Hc as <-. reflexivity. }
    apply rtc_refl.
  - destruct (Hfind (Num 1) (Num 1) (Num 1)) as (found & Hrun & Hfound).
    exists found. split; [exact Hrun|].
    rewrite getEntryByContext_reads in Hrun. injection Hrun as <-.
    reflexivity.
Defined.

(** C6 fails as stated: two saves for the same context are both stored, and
    so are the entries of two legacy keys that read as the same triple. *)
Lemma saveEntry_twice_same_context :
  ~ (forall ls, rtc store_step (Available empty_storage) ls ->
                unique_contexts (stored_entries ls))
  /\ length (filter (fun entry => context_is (Num 1) (Num 1) (Num 0) entry = true)
               (stored_entries
                  (migrateFromLegacy sample_uuids "2024-01-01T00:00:00.000Z"
                     (with_legacy twin_keys_record)).2)) = 2%nat.
Proof.
  split; [|reflexivity].
  intros Hclaim.
  specialize (Hclaim
    (saveEntry clashing_entry (saveEntry first_entry (Available empty_storage)).2).2).
  assert (Hreach : rtc store_step (Available empty_storage)
    (saveEntry clashing_entry (saveEntry first_entry (Available empty_storage)).2).2).
  { eapply rtc_l; [apply (step_save first_entry)|].
    eapply rtc_l; [apply (step_save clashing_entry)|]. apply rtc_refl. }
  specialize (Hclaim Hreach (Num 1) (Num 1) (Num 0)).
  vm_compute in Hclaim. lia.
Qed.

(** * Further properties *)

(** ** Day keys *)

Lemma pretty_N_only_digits (n : N) : only_digits (pretty n) = true.
Proof.
  pose proof (pretty_N_all_digits n) as H. unfold all_digits in H.
  by apply andb_true_iff in H as [_ H].
Qed.

Lemma pretty_N_nonempty (n : N) : pretty n <> "".
Proof.
  pose proof (pretty_N_all_digits n) as H. unfold all_digits in H.
  apply andb_true_iff in H as [H _].
  by apply negb_true_iff, String.eqb_neq in H.
Qed.

Lemma pretty_Z_sign (z : Z) :
  pretty z = (if bool_decide (z < 0) then "-" else "") +:+ pretty (Z.abs_N z).
Proof. by destruct z. Qed.

Lemma split_dash_pretty_Z z :
  split_dash (pretty z) = printed_parts z.
Proof.
  rewrite pretty_Z_sign. unfold printed_parts.
  case_bool_decide; simpl; by rewrite split_dash_only_digits
    by apply pretty_N_only_digits.
Qed.

Lemma split_dash_pretty_Z_then z rest :
  split_dash (pretty z +:+ "-" +:+ rest)
  = (printed_parts z ++ split_dash rest)%list.
Proof.
  rewrite pretty_Z_sign. unfold printed_parts.
  case_bool_decide; simpl.
  - change (pretty (Z.abs_N z) ++ String "-" rest)
      with (pretty (Z.abs_N z) +:+ "-" +:+ rest).
    by rewrite split_dash_after_digits by apply pretty_N_only_digits.
  - change (pretty (Z.abs_N z) ++ String "-" rest)
      with (pretty (Z.abs_N z) +:+ "-" +:+ rest).
    by rewrite split_dash_after_digits by apply pretty_N_only_digits.
Qed.

Lemma split_dash_day_key w d :
  split_dash (day_key w d) = (printed_parts w ++ printed_parts d)%list.
Proof.
  unfold day_key. by rewrite split_dash_pretty_Z_then, split_dash_pretty_Z.
Qed.

Lemma printed_parts_inj w d w' d' :
  (printed_parts w ++ printed_parts d)%list
  = (printed_parts w' ++ printed_parts d')%list ->
  w = w' /\ d = d'.
Proof.
  unfold printed_parts. intros H.
  pose proof (pretty_N_nonempty (Z.abs_N w)).
  pose proof (pretty_N_nonempty (Z.abs_N d)).
  pose proof (pretty_N_nonempty (Z.abs_N w')).
  pose proof (pretty_N_nonempty (Z.abs_N d')).
  repeat case_bool_decide; simplify_eq/=;
    repeat match goal with
    | H : pretty _ = pretty _ |- _ => apply (inj pretty) in H
    end; split; lia.
Qed.

Lemma day_key_eq w d w' d' :
  day_key w d = day_key w' d' -> w = w' /\ d = d'.
Proof.
  intros H. apply printed_parts_inj.
  by rewrite <- !split_dash_day_key, H.
Qed.

(** X1. The key [`${week}-${day}`] tells integer pairs apart: two pairs
    that give the same key are the same pair. *)
Theorem day_key_inj w d w' d' :
  day_key w d = day_key w' d' -> w = w' /\ d = d'.
Proof. apply day_key_eq. Qed.

Lemma day_key_inj_witness : (1 : Z) = 1 /\ (12 : Z) = 12.
Proof. apply (day_key_inj 1 12 1 12). reflexivity. Defined.

(** ** More on progress *)

Lemma markDayComplete_available tz now w d s :
  let p := stored_progress (Available s) in
  (is_Some (completedDays p !! day_key w d)
   /\ markDayComplete tz now w d (Available s) = (Ok p, Available s))
  \/ (completedDays p !! day_key w d = None
      /\ exists p',
           markDayComplete tz now w d (Available s)
           = (Ok p', Available (write PROGRESS (Some (Parsed p')) s))
           /\ completedDays p' = <[day_key w d := now]> (completedDays p)
           /\ (currentWeek p', currentDay p')
              = cursor_rule w d (currentWeek p, currentDay p)
           /\ streak p' = streak_rule tz now (lastCompletedDate p) (streak p)
           /\ lastCompletedDate p' = Some now).
Proof.
  intros p.
  destruct (completedDays p !! day_key w d) as [t|] eqn:Hlook.
  - left. split; [done|]. by apply (markDayComplete_done tz now w d _ t).
  - right. split; [done|].
    pose proof (markDayComplete_fresh tz now w d s Hlook) as Hrun.
    cbv zeta in Hrun. fold p in Hrun.
    eexists. split; [exact Hrun|]. simpl.
    by destruct (cursor_rule w d (currentWeek p, currentDay p)).
Qed.

(** The storage a call leaves, and its progress record. *)
Lemma markDayComplete_progress tz now w d ls :
  let p := stored_progress ls in
  let p' := stored_progress (markDayComplete tz now w d ls).2 in
  (p' = p /\ (ls = Unavailable \/ is_Some (completedDays p !! day_key w d)))
  \/ (completedDays p !! day_key w d = None
      /\ completedDays p' = <[day_key w d := now]> (completedDays p)
      /\ (currentWeek p', currentDay p')
         = cursor_rule w d (currentWeek p, currentDay p)
      /\ streak p' = streak_rule tz now (lastCompletedDate p) (streak p)
      /\ lastCompletedDate p' = Some now).
Proof.
  destruct ls as [|s].
  - left. rewrite markDayComplete_unavailable. split; [done|by left].
  - destruct (markDayComplete_available tz now w d s)
      as [[Hsome ->]|(Hnone & p' & -> & Hp')].
    + left. split; [done|by right].
    + right. cbn [snd]. rewrite stored_progress_write. by split.
Qed.

(** X2. After [markDayComplete(week, day)] on reachable storage,
    [isDayComplete(week, day)] is true, and [isDayComplete] of every other
    pair answers as before the call. *)
Theorem markDayComplete_then_isDayComplete tz now w d s w' d' :
  let ls' := (markDayComplete tz now w d (Available s)).2 in
  isDayComplete w d ls' = (Ok true, ls')
  /\ ((w', d') <> (w, d) ->
      (isDayComplete w' d' ls').1 = (isDayComplete w' d' (Available s)).1).
Proof.
  intros ls'. unfold isDayComplete. run_reads. subst ls'.
  destruct (markDayComplete_available tz now w d s)
    as [[Hsome ->]|(Hnone & p' & -> & Hdays & _)]; cbn [snd fst].
  - split; [|done]. by rewrite bool_decide_eq_true_2.
  - rewrite stored_progress_write, Hdays. split.
    + rewrite lookup_insert_eq. by rewrite bool_decide_eq_true_2.
    + intros Hother. rewrite lookup_insert_ne; [done|].
      intros Heq. apply day_key_eq in Heq as [-> ->]. by apply Hother.
Qed.

Lemma markDayComplete_then_isDayComplete_witness :
  (isDayComplete 1 2 (markDayComplete utc 5000 11 2 (Available two_day_storage)).2).1
  = Ok false.
Proof.
  destruct (markDayComplete_then_isDayComplete utc 5000 11 2 two_day_storage 1 2)
    as [_ Hother].
  rewrite Hother; [reflexivity|discriminate].
Defined.

(** X3. [markDayComplete] never removes a completed day nor changes its
    timestamp; [getCompletedDaysCount] grows by one when the day was not
    yet completed on reachable storage, and stays the same otherwise. *)
Theorem markDayComplete_completions_kept tz now w d ls :
  let ls' := (markDayComplete tz now w d ls).2 in
  let fresh :=
    ls <> Unavailable
    /\ completedDays (stored_progress ls) !! day_key w d = None in
  (forall key t,
     completedDays (stored_progress ls) !! key = Some t ->
     completedDays (stored_progress ls') !! key = Some t)
  /\ exists n,
       getCompletedDaysCount ls = (Ok n, ls)
       /\ (fresh -> getCompletedDaysCount ls' = (Ok (S n), ls'))
       /\ (~ fresh -> getCompletedDaysCount ls' = (Ok n, ls')).
Proof.
  intros ls' fresh. unfold getCompletedDaysCount. run_reads.
  subst ls' fresh.
  destruct (markDayComplete_progress tz now w d ls)
    as [[Hsame Hwhy]|(Hnone & Hdays & _)]; cbv zeta in *.
  - rewrite Hsame. split; [done|]. eexists. split; [done|]. split; [|done].
    intros [Hls Hfresh]. destruct Hwhy as [->|[t Ht]]; [done|congruence].
  - rewrite Hdays. split.
    + intros key t Hkey. rewrite lookup_insert_ne; [done|]. congruence.
    + eexists. split; [done|]. split.
      * intros _. by rewrite map_size_insert_None.
      * intros Hnot. destruct Hnot. split; [|done]. intros ->.
        rewrite markDayComplete_unavailable in Hdays. simpl in Hdays.
        symmetry in Hdays.
        by apply (insert_non_empty (M:=gmap string)) in Hdays.
Qed.

Lemma markDayComplete_completions_kept_witness :
  completedDays
    (stored_progress (markDayComplete utc 172800000 1 2 (Available two_day_storage)).2)
  !! "1-1" = Some 86400000.
Proof.
  destruct (markDayComplete_completions_kept utc 172800000 1 2
              (Available two_day_storage)) as [Hkept _].
  apply Hkept. reflexivity.
Defined.

Lemma foldl_count {A} (P : A -> bool) (l : list A) (n : nat) :
  foldl (fun c x => if P x then S c else c) n l
  = (n + length (filter (fun x => P x = true) l))%nat.
Proof.
  revert n. induction l as [|x l IH]; intros n; simpl; [lia|].
  rewrite IH. destruct (P x) eqn:Hx.
  - rewrite filter_cons_True by done. simpl. lia.
  - rewrite filter_cons_False by congruence. lia.
Qed.

(** The weeks 1 to 8 that [getCompletedWeeksCount] counts. *)
Lemma getCompletedWeeksCount_reads ls :
  getCompletedWeeksCount ls
  = (Ok (length (filter
                   (fun w => week_complete (completedDays (stored_progress ls)) w
                             = true)
                   (seqZ 1 8))), ls).
Proof.
  unfold getCompletedWeeksCount. run_reads. by rewrite foldl_count.
Qed.

Lemma week_complete_days completed w d :
  week_complete completed w = true -> 1 <= d <= 7 ->
  is_Some (completed !! day_key w d).
Proof.
  unfold week_complete. rewrite forallb_forall. intros Hall Hd.
  apply (bool_decide_eq_true_1 _), Hall, list_elem_of_In, elem_of_seqZ. lia.
Qed.

Lemma week_keys_length (weeks : list Z) :
  length (weeks ≫= fun w => day_key w <$> seqZ 1 7) = (7 * length weeks)%nat.
Proof.
  induction weeks as [|w weeks IH]; [done|].
  rewrite bind_cons, length_app, length_fmap, IH. simpl. lia.
Qed.

(** X4. [getCompletedWeeksCount] is at most 8, and seven times the count
    is at most [getCompletedDaysCount]: a week is counted only when its
    seven days are all among the completed days. *)
Theorem getCompletedWeeksCount_bounds ls :
  exists weeks days,
    getCompletedWeeksCount ls = (Ok weeks, ls)
    /\ getCompletedDaysCount ls = (Ok days, ls)
    /\ (weeks <= 8)%nat
    /\ (7 * weeks <= days)%nat.
Proof.
  rewrite getCompletedWeeksCount_reads.
  unfold getCompletedDaysCount. run_reads.
  set (completed := completedDays (stored_progress ls)).
  set (counted := filter (fun w => week_complete completed w = true) (seqZ 1 8)).
  exists (length counted), (size completed). do 2 (split; [done|]). split.
  - subst counted. etrans; [apply length_filter|]. done.
  - set (keys := counted ≫= fun w => day_key w <$> seqZ 1 7).
    rewrite <- (week_keys_length counted). fold keys.
    assert (Hnodup : NoDup keys).
    { apply NoDup_bind.
      - intros w1 w2 key _ _ (d1 & -> & _)%list_elem_of_fmap
          (d2 & Heq & _)%list_elem_of_fmap.
        by apply day_key_eq in Heq as [-> _].
      - intros w _. apply NoDup_fmap_2_strong; [|apply NoDup_seqZ].
        intros d1 d2 _ _ Heq. by apply day_key_eq in Heq as [_ ->].
      - apply NoDup_filter, NoDup_seqZ. }
    rewrite <- (size_list_to_set (C:=gset string) keys Hnodup).
    rewrite <- (size_dom (D:=gset string) completed).
    apply subseteq_size. intros key Hkey.
    apply elem_of_list_to_set, list_elem_of_bind in Hkey as (w & Hkey & Hw).
    apply list_elem_of_fmap in Hkey as (d & -> & Hd).
    apply list_elem_of_filter in Hw as [Hw _].
    apply elem_of_seqZ in Hd.
    apply elem_of_dom, (week_complete_days completed w d Hw). lia.
Qed.

Lemma week_complete_mono completed completed' w :
  (forall key, is_Some (completed !! key) -> is_Some (completed' !! key)) ->
  week_complete completed w = true -> week_complete completed' w = true.
Proof.
  unfold week_complete. rewrite !forallb_forall. intros Hsub Hall d Hd.
  apply bool_decide_eq_true_2, Hsub, (bool_decide_eq_true_1 _), Hall, Hd.
Qed.

Lemma forallb_pointwise {A} (f g : A -> bool) (l : list A) :
  (forall x, f x = g x) -> forallb f l = forallb g l.
Proof. intros Hfg. induction l as [|x l IH]; simpl; [done|]. by rewrite Hfg, IH. Qed.

Lemma week_complete_other_week completed w d now w' :
  w' <> w ->
  week_complete (<[day_key w d := now]> completed) w' = week_complete completed w'.
Proof.
  intros Hw. unfold week_complete. apply forallb_pointwise. intros d'.
  rewrite lookup_insert_ne; [done|].
  intros Heq. by apply day_key_eq in Heq as [-> _].
Qed.

(** Changing a predicate at one element of a list without repetition
    changes the number of elements it holds of by at most one. *)
Lemma length_filter_but_one `{EqDecision A} (P Q : A -> bool) (a : A)
    (l : list A) :
  NoDup l ->
  (forall x, x <> a -> Q x = P x) ->
  (P a = true -> Q a = true) ->
  (length (filter (fun x => P x = true) l)
   <= length (filter (fun x => Q x = true) l)
   <= S (length (filter (fun x => P x = true) l)))%nat.
Proof.
  intros Hnodup Hother Ha. induction Hnodup as [|x l Hx Hl IH]; [simpl; lia|].
  destruct (decide (x = a)) as [->|Hne].
  - assert (Hsame : filter (fun x => Q x = true) l
                    = filter (fun x => P x = true) l).
    { clear IH Hl. induction l as [|y l IHl]; [done|].
      apply not_elem_of_cons in Hx as [Hy Hx].
      rewrite !filter_cons, (Hother y) by done.
      by rewrite IHl. }
    rewrite !filter_cons, Hsame.
    destruct (P a) eqn:HP.
    + rewrite Ha by done. simpl. lia.
    + destruct (Q a); simpl; repeat case_decide; simpl; try done; lia.
  - rewrite !filter_cons, (Hother x Hne).
    destruct (P x); repeat case_decide; simpl; try done; lia.
Qed.

(** X5. One call of [markDayComplete] never lowers
    [getCompletedWeeksCount] and raises it by at most one. *)
Theorem markDayComplete_weeks_count tz now w d ls :
  let ls' := (markDayComplete tz now w d ls).2 in
  exists before after,
    getCompletedWeeksCount ls = (Ok before, ls)
    /\ getCompletedWeeksCount ls' = (Ok after, ls')
    /\ (before <= after <= S before)%nat.
Proof.
  intros ls'. rewrite !getCompletedWeeksCount_reads. eexists _, _.
  do 2 (split; [done|]). subst ls'.
  destruct (markDayComplete_progress tz now w d ls)
    as [[Hsame _]|(Hnone & Hdays & _)]; cbv zeta in *.
  - rewrite Hsame. lia.
  - rewrite Hdays. apply (length_filter_but_one _ _ w).
    + apply NoDup_seqZ.
    + intros w' Hw'. by apply week_complete_other_week.
    + apply week_complete_mono. intros key [t Ht].
      destruct (decide (key = day_key w d)) as [->|Hne].
      * rewrite lookup_insert_eq. by eexists.
      * rewrite lookup_insert_ne by done. by eexists.
Qed.

Lemma progress_ok_step ls ls' :
  progress_step ls ls' ->
  progress_ok (stored_progress ls) -> progress_ok (stored_progress ls').
Proof.
  intros [tz now w d ls0] (Hweek & Hday & Hstreak & Hlast).
  destruct (markDayComplete_progress tz now w d ls0)
    as [[Hsame _]|(Hnone & Hdays & Hcursor & Hstreak' & Hlast')];
    cbv zeta in *.
  - by rewrite Hsame.
  - unfold progress_ok. rewrite Hdays, Hstreak', Hlast'.
    rewrite map_size_insert_None by done.
    assert (1 <= (cursor_rule w d (currentWeek (stored_progress ls0),
                                   currentDay (stored_progress ls0))).1
            /\ 1 <= (cursor_rule w d (currentWeek (stored_progress ls0),
                                      currentDay (stored_progress ls0))).2 <= 7)
      as Hpos.
    { unfold cursor_rule. repeat case_decide; simpl in *; lia. }
    rewrite <- Hcursor in Hpos. simpl in Hpos.
    split; [lia|]. split; [lia|]. split; [|done].
    unfold streak_rule. destruct (lastCompletedDate (stored_progress ls0));
      repeat case_decide; lia.
Qed.

(** X6. Through any run of [markDayComplete] calls that starts from a
    progress record with a cursor at week 1 or later and day 1 to 7, a
    streak between 0 and the number of completed days, and a last
    completion date whenever a day is completed (the default record is
    one), the cursor, the streak and the last completion date keep those
    properties. *)
Theorem markDayComplete_keeps_progress_ok ls0 ls :
  progress_ok (stored_progress ls0) ->
  rtc progress_step ls0 ls ->
  progress_ok (stored_progress ls).
Proof.
  intros Hok Hrun. induction Hrun as [|ls1 ls2 ls3 Hstep _ IH]; [done|].
  apply IH. by eapply progress_ok_step.
Qed.

Lemma markDayComplete_keeps_progress_ok_witness :
  progress_ok
    (stored_progress
       (markDayComplete utc 90000000 1 2
          (markDayComplete utc 1000 1 1 (Available empty_storage)).2).2).
Proof.
  apply (markDayComplete_keeps_progress_ok (Available empty_storage)).
  - repeat split; simpl; try lia.
  - eapply rtc_l; [apply (progress_mark utc 1000 1 1)|].
    eapply rtc_l; [apply (progress_mark utc 90000000 1 2)|].
    apply rtc_refl.
Defined.

Lemma stuck_cursor_step ls ls' :
  progress_step ls ls' ->
  let p := stored_progress ls in
  let p' := stored_progress ls' in
  is_Some (completedDays p !! day_key (currentWeek p) (currentDay p)) ->
  currentWeek p' = currentWeek p /\ currentDay p' = currentDay p
  /\ is_Some (completedDays p' !! day_key (currentWeek p') (currentDay p')).
Proof.
  intros [tz now w d ls0] p p' Hdone. subst p p'.
  destruct (markDayComplete_progress tz now w d ls0)
    as [[Hsame _]|(Hnone & Hdays & Hcursor & _)]; cbv zeta in *.
  - by rewrite Hsame.
  - assert (Hne : (w, d) <> (currentWeek (stored_progress ls0),
                             currentDay (stored_progress ls0))).
    { intros [= -> ->]. rewrite Hnone in Hdone. by destruct Hdone. }
    unfold cursor_rule in Hcursor. rewrite decide_False in Hcursor by done.
    injection Hcursor as -> ->. do 2 (split; [done|]).
    rewrite Hdays. destruct Hdone as [t Ht].
    destruct (decide (day_key w d
                      = day_key (currentWeek (stored_progress ls0))
                                (currentDay (stored_progress ls0))))
      as [Heq|Hkey].
    + rewrite <- Heq, lookup_insert_eq. by eexists.
    + rewrite lookup_insert_ne by done. by eexists.
Qed.

(** X7. Once the cursor stands on a day that is already completed (a day
    completed out of order before the cursor reached it), no call of
    [markDayComplete] moves the cursor again. *)
Theorem markDayComplete_cursor_stuck ls0 ls :
  let p0 := stored_progress ls0 in
  is_Some (completedDays p0 !! day_key (currentWeek p0) (currentDay p0)) ->
  rtc progress_step ls0 ls ->
  currentWeek (stored_progress ls) = currentWeek p0
  /\ currentDay (stored_progress ls) = currentDay p0.
Proof.
  intros p0 Hdone Hrun. subst p0.
  induction Hrun as [|ls1 ls2 ls3 Hstep _ IH]; [done|].
  destruct (stuck_cursor_step _ _ Hstep Hdone) as (Hw & Hd & Hdone').
  rewrite <- Hw, <- Hd. by apply IH.
Qed.

(** Day 2 of week 1 completed first, then day 1: the cursor reaches day 2
    and stays there, whatever is completed next. *)
Lemma markDayComplete_cursor_stuck_witness :
  let ls0 :=
    (markDayComplete utc 2000 1 1
       (markDayComplete utc 1000 1 2 (Available empty_storage)).2).2 in
  let ls :=
    (markDayComplete utc 4000 1 3 (markDayComplete utc 3000 1 2 ls0).2).2 in
  currentWeek (stored_progress ls) = 1 /\ currentDay (stored_progress ls) = 2.
Proof.
  intros ls0 ls.
  apply (markDayComplete_cursor_stuck ls0 ls).
  - vm_compute. by eexists.
  - eapply rtc_l; [apply (progress_mark utc 3000 1 2)|].
    eapply rtc_l; [apply (progress_mark utc 4000 1 3)|].
    apply rtc_refl.
Defined.

(** ** More on the entry store *)

Lemma getEntryById_reads i ls :
  getEntryById i ls
  = (Ok (find (fun entry => String.eqb (id entry) i) (stored_entries ls)), ls).
Proof. unfold getEntryById. by run_reads. Qed.

Lemma getEntryCount_reads ls :
  getEntryCount ls = (Ok (length (stored_entries ls)), ls).
Proof. unfold getEntryCount. by run_reads. Qed.

Lemma getEntriesByType_reads t ls :
  getEntriesByType t ls
  = (Ok (filter (fun entry => type entry = t) (stored_entries ls)), ls).
Proof. unfold getEntriesByType. by run_reads. Qed.

Lemma find_snoc {A} (f : A -> bool) (l : list A) (x : A) :
  find f (l ++ [x])
  = match find f l with
    | Some y => Some y
    | None => if f x then Some x else None
    end.
Proof.
  induction l as [|y l IH]; simpl; [done|]. by destruct (f y).
Qed.

Lemma find_id_none i (entries : list Entry) :
  (forall e, e ∈ entries -> id e <> i) ->
  find (fun entry => String.eqb (id entry) i) entries = None.
Proof.
  intros Hnone. induction entries as [|e entries IH]; [done|]. simpl.
  destruct (String.eqb_spec (id e) i) as [Heq|_].
  - destruct (Hnone e); [apply list_elem_of_here | done].
  - apply IH. intros e' He'. apply Hnone. by apply list_elem_of_further.
Qed.

(** X8. Saving an entry whose id no stored entry carries, on reachable
    storage: the entry is appended, [getEntryCount] grows by one,
    [getEntryById] of its id returns it, and [getEntryById] of any other id
    answers as before. *)
Theorem saveEntry_then_getEntryById entry s :
  (forall e, e ∈ stored_entries (Available s) -> id e <> id entry) ->
  let ls' := (saveEntry entry (Available s)).2 in
  saveEntry entry (Available s) = (Ok entry, ls')
  /\ stored_entries ls' = (stored_entries (Available s) ++ [entry])%list
  /\ getEntryCount ls' = (Ok (S (length (stored_entries (Available s)))), ls')
  /\ getEntryById (id entry) ls' = (Ok (Some entry), ls')
  /\ forall i, i <> id entry ->
       (getEntryById i ls').1 = (getEntryById i (Available s)).1.
Proof.
  intros Hfresh ls'. subst ls'. rewrite saveEntry_available. cbn [snd].
  rewrite getEntryCount_reads, !getEntryById_reads, stored_entries_write.
  split; [done|]. split; [done|]. split.
  { rewrite length_app. simpl. do 2 f_equal. lia. }
  split.
  - rewrite find_snoc, (find_id_none _ _ Hfresh).
    by rewrite String.eqb_refl.
  - intros i Hi. rewrite !getEntryById_reads, stored_entries_write. cbn [fst].
    rewrite find_snoc.
    destruct (find _ (stored_entries (Available s))); [done|].
    destruct (String.eqb_spec (id entry) i); [congruence|done].
Qed.

Lemma saveEntry_then_getEntryById_witness :
  getEntryById "uuid-b" (saveEntry second_entry (Available one_entry_storage)).2
  = (Ok (Some second_entry),
     (saveEntry second_entry (Available one_entry_storage)).2).
Proof.
  destruct (saveEntry_then_getEntryById second_entry one_entry_storage)
    as (_ & _ & _ & Hget & _).
  - simpl. intros e He. apply list_elem_of_singleton in He as ->. discriminate.
  - exact Hget.
Defined.

(** X9. When [localStorage] is out of reach, [saveEntry],
    [markDayComplete] and [migrateFromLegacy] raise, while [updateEntry]
    and [deleteEntry] answer as for an unknown id ([null], [false]) and
    raise nothing. *)
Theorem unreachable_storage_writes entry now i updates tz t w d uuids :
  saveEntry entry Unavailable = (Throw SecurityError, Unavailable)
  /\ markDayComplete tz t w d Unavailable = (Throw SecurityError, Unavailable)
  /\ migrateFromLegacy uuids now Unavailable
     = (Throw SecurityError, Unavailable)
  /\ updateEntry now i updates Unavailable = (Ok None, Unavailable)
  /\ deleteEntry i Unavailable = (Ok false, Unavailable).
Proof.
  split; [reflexivity|]. split; [apply markDayComplete_unavailable|].
  repeat split; reflexivity.
Qed.

(** X10. With an unparseable text under the entries key, [updateEntry] and
    [deleteEntry] answer not found and leave the text in place, and
    [saveEntry] replaces it by a collection that holds the new entry only. *)
Theorem corrupt_entries_document s raw entry now i updates :
  read ENTRIES s = Some (Corrupt raw) ->
  updateEntry now i updates (Available s) = (Ok None, Available s)
  /\ deleteEntry i (Available s) = (Ok false, Available s)
  /\ saveEntry entry (Available s)
     = (Ok entry, Available (write ENTRIES (Some (Parsed [entry])) s)).
Proof.
  intros Hraw.
  assert (Hempty : stored_entries (Available s) = []).
  { destruct s. simpl in *. by rewrite Hraw. }
  split; [|split].
  - apply updateEntry_unknown. by rewrite Hempty.
  - rewrite deleteEntry_available, Hempty. reflexivity.
  - by rewrite saveEntry_available, Hempty.
Qed.

Lemma corrupt_entries_document_witness :
  saveEntry first_entry
    (Available (write ENTRIES (Some (Corrupt "[{")) empty_storage))
  = (Ok first_entry, Available one_entry_storage).
Proof.
  destruct (corrupt_entries_document
              (write ENTRIES (Some (Corrupt "[{")) empty_storage) "[{"
              first_entry "2024-01-01T00:00:00.000Z" "uuid-a"
              (content_only "x")) as (_ & _ & Hsave).
  - reflexivity.
  - exact Hsave.
Defined.

Lemma filter_all {A} (P : A -> Prop) `{!forall x, Decision (P x)} (l : list A) :
  length (filter P l) = length l -> filter P l = l.
Proof.
  induction l as [|x l IH]; [done|]. rewrite filter_cons.
  case_decide; simpl.
  - intros [= Hlen]. by rewrite IH.
  - intros Hlen. pose proof (length_filter P l). lia.
Qed.

(** X11. [deleteEntry(id)] on reachable storage answers [true] exactly
    when some stored entry carries the id; it removes every such entry and
    keeps the others in their order, so that [getEntryById(id)] finds
    nothing afterwards; when it answers [false] storage is untouched. *)
Theorem deleteEntry_removes i s :
  let before := stored_entries (Available s) in
  exists removed ls',
    deleteEntry i (Available s) = (Ok removed, ls')
    /\ (removed = true <-> exists e, e ∈ before /\ id e = i)
    /\ stored_entries ls' = filter (fun e => id e <> i) before
    /\ getEntryById i ls' = (Ok None, ls')
    /\ (removed = false -> ls' = Available s).
Proof.
  intros before. rewrite deleteEntry_available. fold before. cbv zeta.
  assert (Hgone : find (fun entry => String.eqb (id entry) i)
                    (filter (fun e => id e <> i) before) = None).
  { apply find_id_none. by intros e [He _]%list_elem_of_filter. }
  destruct (Nat.eqb_spec (length (filter (fun e => id e <> i) before))
              (length before)) as [Hsame|Hless].
  - apply filter_all in Hsame.
    exists false, (Available s). split; [done|]. split.
    + split; [done|]. intros (e & He & Hid).
      rewrite <- Hsame in He. by apply list_elem_of_filter in He as [? _].
    + rewrite Hsame in Hgone |- *. split; [done|]. split; [|done].
      rewrite getEntryById_reads. fold before. by rewrite Hgone.
  - eexists true, _. split; [done|]. split.
    + split; [|done]. intros _.
      destruct (decide (Exists (fun e => id e = i) before)) as [Hex|Hnone].
      * apply Exists_exists in Hex as (e & He & Hid). by exists e.
      * destruct Hless. f_equal.
        apply not_Exists_Forall in Hnone; [|intros; apply _].
        clear -Hnone. induction Hnone as [|e l He _ IH]; [done|].
        rewrite filter_cons_True by done. simpl. by rewrite IH.
    + rewrite getEntryById_reads, stored_entries_write. by rewrite Hgone.
Qed.

(** X12. [updateEntry] changes the first stored entry that carries the id
    and nothing else: the collection keeps its length and every other
    position keeps its entry; for an id that no entry carries, storage is
    untouched. *)
Theorem updateEntry_first_only now i updates ls :
  let before := stored_entries ls in
  exists answer ls',
    updateEntry now i updates ls = (Ok answer, ls')
    /\ length (stored_entries ls') = length before
    /\ match answer with
       | Some updated =>
           exists index entry,
             before !! index = Some entry
             /\ id entry = i
             /\ (forall j e, before !! j = Some e -> (j < index)%nat -> id e <> i)
             /\ updated = merge entry updates now
             /\ stored_entries ls' = <[index := updated]> before
       | None =>
           ls' = ls /\ forall e, e ∈ before -> id e <> i
       end.
Proof.
  intros before.
  destruct (list_find (fun entry => id entry = i) before)
    as [[index entry]|] eqn:Hfind.
  - destruct ls as [|s]; [done|].
    rewrite (updateEntry_found now i updates s index entry Hfind).
    eexists _, _. split; [done|]. rewrite stored_entries_write.
    split; [apply length_insert|].
    apply list_find_Some in Hfind as (Hlook & Hid & Hfirst).
    by exists index, entry.
  - rewrite (updateEntry_unknown now i updates ls Hfind).
    eexists _, _. split; [done|]. split; [done|]. split; [done|].
    apply list_find_None in Hfind. by apply Forall_forall.
Qed.

(** X13. The two types split the collection: the reflections and the free
    entries that [getEntriesByType] returns are together a rearrangement
    of [getAllEntries], each list in stored order. *)
Theorem getEntriesByType_split ls :
  exists reflections frees,
    getEntriesByType reflection ls = (Ok reflections, ls)
    /\ getEntriesByType free ls = (Ok frees, ls)
    /\ (reflections ++ frees)%list ≡ₚ stored_entries ls
    /\ reflections `sublist_of` stored_entries ls
    /\ frees `sublist_of` stored_entries ls
    /\ Forall (fun e => type e = reflection) reflections
    /\ Forall (fun e => type e = free) frees.
Proof.
  rewrite !getEntriesByType_reads. eexists _, _. do 2 (split; [done|]).
  split; [|split; [apply sublist_filter|split; [apply sublist_filter|]]].
  - rewrite (list_filter_iff (fun e => type e = free)
               (fun e => ~ type e = reflection)).
    + apply filter_app_complement.
    + intros e. destruct (type e); naive_solver.
  - split; apply Forall_forall; by intros e [He _]%list_elem_of_filter.
Qed.

(** ** The journal editor *)

Lemma length_trimStart s : (String.length (trimStart s) <= String.length s)%nat.
Proof.
  induction s as [|c s IH]; simpl; [lia|]. destruct (is_space c); simpl; lia.
Qed.

Lemma length_trimEnd s : (String.length (trimEnd s) <= String.length s)%nat.
Proof.
  induction s as [|c s IH]; simpl; [lia|].
  destruct (trimEnd s); [destruct (is_space c)|]; simpl in *; lia.
Qed.

Lemma length_trim s : (String.length (trim s) <= String.length s)%nat.
Proof.
  unfold trim. etrans; [apply length_trimEnd | apply length_trimStart].
Qed.

Lemma length_substring_0 m s : (String.length (substring 0 m s) <= m)%nat.
Proof.
  revert s. induction m as [|m IH]; intros [|c s]; simpl; try lia.
  specialize (IH s). lia.
Qed.

Lemma length_string_app (a b : string) :
  String.length (a +:+ b) = (String.length a + String.length b)%nat.
Proof. induction a as [|c a IH]; simpl; [done|]. by rewrite <- IH. Qed.

Lemma length_substring_0_text m s :
  (String.length (substring 0 m s) <= String.length s)%nat.
Proof.
  revert s. induction m as [|m IH]; intros [|c s]; simpl; try lia.
  specialize (IH s). lia.
Qed.

Lemma substring_0_0 s : substring 0 0 s = "".
Proof. by destruct s. Qed.

(** X14. For a [maxLength] that is not negative, the preview that
    [truncatePreview] returns has at most [maxLength + 3] characters; for
    any [maxLength] it has at most three characters more than the text.
    For a negative [maxLength] the preview of a text that is not empty is
    three dots alone, longer than [maxLength + 3]. *)
Theorem truncatePreview_length text maxLength :
  (0 <= maxLength ->
     Z.of_nat (String.length (truncatePreview text maxLength)) <= maxLength + 3)
  /\ (String.length (truncatePreview text maxLength)
      <= String.length text + 3)%nat
  /\ (maxLength < 0 -> text <> "" -> truncatePreview text maxLength = "...").
Proof.
  unfold truncatePreview.
  destruct (String.eqb_spec text "") as [->|Htext].
  { split; [simpl; lia|]. split; [simpl; lia|]. done. }
  case_bool_decide as Hshort.
  - split; [lia|]. split; [lia|]. intros Hneg _.
    destruct text; [done|]. simpl in Hshort. lia.
  - pose proof (length_trim (substring 0 (Z.to_nat maxLength) text)) as Htrim.
    pose proof (length_substring_0 (Z.to_nat maxLength) text) as Hcut.
    pose proof (length_substring_0_text (Z.to_nat maxLength) text) as Hcut'.
    rewrite length_string_app. cbn [String.length].
    split; [lia|]. split; [lia|]. intros Hneg _.
    replace (Z.to_nat maxLength) with 0%nat by lia.
    by rewrite substring_0_0.
Qed.

Lemma truncatePreview_length_witness :
  Z.of_nat (String.length (truncatePreview "In the beginning  was the Word" 17))
  <= 20
  /\ truncatePreview "abcdef" (-2) = "...".
Proof.
  destruct (truncatePreview_length "In the beginning  was the Word" 17)
    as (Hbound & _ & _).
  destruct (truncatePreview_length "abcdef" (-2)) as (_ & _ & Hdots).
  split; [apply Hbound; lia | apply Hdots; [lia | discriminate]].
Defined.

Lemma openReflectionEditor_reads w d p ls :
  openReflectionEditor w d p ls
  = (Ok {| currentEditingEntry :=
             find (context_is w d p) (stored_entries ls);
           currentEditingContext :=
             Some {| week := w; day := d; promptIndex := p |} |}, ls).
Proof.
  unfold openReflectionEditor, bind. by rewrite getEntryByContext_reads.
Qed.

Lemma bind_ret_storage {A B} (m : M A) (b : B) ls :
  (bind m (fun _ => ret b) ls).2 = (m ls).2.
Proof. unfold bind. by destruct (m ls) as [[a|e] ls']. Qed.

(** What [saveCurrentEntry] leaves in storage. *)
Lemma saveCurrentEntry_storage uuid now textarea promptText editor ls :
  (saveCurrentEntry uuid now textarea promptText editor ls).2
  = if String.eqb (trim textarea) "" then ls
    else match currentEditingEntry editor with
         | Some entry =>
             (updateEntry now (id entry) (content_only (trim textarea)) ls).2
         | None =>
             (saveEntry
                (createEntry uuid now
                   match currentEditingContext editor with
                   | Some _ => reflection
                   | None => free
                   end (trim textarea) (JStr promptText)
                   (currentEditingContext editor)) ls).2
         end.
Proof.
  unfold saveCurrentEntry. destruct (String.eqb (trim textarea) ""); [done|].
  destruct (currentEditingEntry editor); apply bind_ret_storage.
Qed.

(** X15. Opening the editor on a prompt with [openReflectionEditor] and
    saving with [saveCurrentEntry] never adds a second entry for a
    context: a collection with at most one entry per context triple has
    at most one afterwards, whatever was typed. *)
Theorem reflection_editor_keeps_unique uuid now textarea promptText w d p
    ls editor ls1 :
  openReflectionEditor w d p ls = (Ok editor, ls1) ->
  unique_contexts (stored_entries ls) ->
  unique_contexts
    (stored_entries (saveCurrentEntry uuid now textarea promptText editor ls1).2).
Proof.
  intros Hopen Huniq. rewrite openReflectionEditor_reads in Hopen.
  assert (ls1 = ls) as -> by congruence.
  assert (editor
          = {| currentEditingEntry :=
                 find (context_is w d p) (stored_entries ls);
               currentEditingContext :=
                 Some {| week := w; day := d; promptIndex := p |} |})
    as -> by congruence.
  clear Hopen. rewrite saveCurrentEntry_storage.
  cbn [currentEditingEntry currentEditingContext].
  destruct (String.eqb (trim textarea) ""); [done|].
  destruct (find (context_is w d p) (stored_entries ls)) as [entry|] eqn:Hfind.
  - eapply disciplined_step_unique; [apply disciplined_update|done].
  - eapply disciplined_step_unique; [apply disciplined_save|done].
    intros c [= <-]. simpl. rewrite getEntryByContext_reads. simpl.
    by rewrite Hfind.
Qed.

Lemma reflection_editor_keeps_unique_witness :
  unique_contexts
    (stored_entries
       (saveCurrentEntry "uuid-z" "2024-02-01T00:00:00.000Z" " again " "Why?"
          {| currentEditingEntry := Some first_entry;
             currentEditingContext :=
               Some {| week := Num 1; day := Num 1; promptIndex := Num 0 |} |}
          (Available one_entry_storage)).2).
Proof.
  apply (reflection_editor_keeps_unique _ _ _ _ (Num 1) (Num 1) (Num 0)
           (Available one_entry_storage)).
  - reflexivity.
  - intros w d p. simpl. rewrite filter_cons, filter_nil.
    case_decide; simpl; lia.
Defined.

Lemma find_list_find {A} (f : A -> bool) (l : list A) :
  find f l = snd <$> list_find (fun x => f x = true) l.
Proof.
  induction l as [|x l IH]; [done|]. simpl. rewrite IH.
  destruct (f x) eqn:Hx.
  - by rewrite decide_True.
  - rewrite decide_False by congruence.
    by destruct (list_find _ l) as [[? ?]|].
Qed.

(** X16. On reachable storage whose entries have distinct ids, typing a
    text that is not blank for the prompt [(week, day, promptIndex)] and
    saving makes [getEntryByContext] return an entry for that prompt whose
    content is the trimmed text; the collection grows by one entry when the
    prompt had none, and keeps its size when it had one. *)
Theorem reflection_editor_round_trip uuid now textarea promptText w d p
    s editor ls1 :
  openReflectionEditor (Num w) (Num d) (Num p) (Available s) = (Ok editor, ls1) ->
  NoDup (id <$> stored_entries (Available s)) ->
  trim textarea <> "" ->
  let ls' := (saveCurrentEntry uuid now textarea promptText editor ls1).2 in
  exists entry,
    getEntryByContext (Num w) (Num d) (Num p) ls' = (Ok (Some entry), ls')
    /\ content entry = trim textarea
    /\ context entry
       = Some {| week := Num w; day := Num d; promptIndex := Num p |}
    /\ length (stored_entries ls')
       = (length (stored_entries (Available s))
          + match currentEditingEntry editor with
            | Some _ => 0
            | None => 1
            end)%nat.
Proof.
  intros Hopen Hnodup Htext ls'. rewrite openReflectionEditor_reads in Hopen.
  assert (ls1 = Available s) as -> by congruence.
  assert (editor
          = {| currentEditingEntry :=
                 find (context_is (Num w) (Num d) (Num p))
                   (stored_entries (Available s));
               currentEditingContext :=
                 Some {| week := Num w; day := Num d; promptIndex := Num p |} |})
    as -> by congruence.
  clear Hopen. subst ls'. rewrite saveCurrentEntry_storage.
  cbn [currentEditingEntry currentEditingContext].
  apply String.eqb_neq in Htext. rewrite Htext.
  set (entries := stored_entries (Available s)) in *.
  set (carries := context_is (Num w) (Num d) (Num p)).
  destruct (find carries entries) as [found|] eqn:Hfind.
  - pose proof Hfind as Hfirst. rewrite find_list_find in Hfirst.
    destruct (list_find (fun x => carries x = true) entries)
      as [[k found']|] eqn:Hk; [|done].
    simpl in Hfirst. assert (found' = found) as -> by congruence. clear Hfirst.
    apply list_find_Some in Hk as (Hlook & Hcarries & Hbefore).
    destruct (list_find_id entries found Hnodup) as [index Hindex].
    { by eapply list_elem_of_lookup_2. }
    assert (index = k) as ->.
    { apply list_find_Some in Hindex as (Hlook' & _ & _).
      eapply NoDup_lookup; [exact Hnodup| |];
        by rewrite list_lookup_fmap, ?Hlook, ?Hlook'. }
    rewrite (updateEntry_found now _ _ s k found Hindex). cbn [snd].
    rewrite getEntryByContext_reads, stored_entries_write. fold entries.
    eexists. split; [|split; [|split]].
    + rewrite find_list_find. fold carries.
      erewrite (proj2 (list_find_Some _ _ k _)); [reflexivity|].
      split; [|split].
      * apply list_lookup_insert_eq. by eapply lookup_lt_Some.
      * exact Hcarries.
      * intros j y Hj Hlt. rewrite list_lookup_insert_ne in Hj by lia.
        by eapply Hbefore.
    + done.
    + simpl. apply context_is_true in Hcarries as (c & Hc & Hw & Hd & Hp).
      rewrite Hc. destruct c. simpl in *. by subst.
    + rewrite length_insert. lia.
  - rewrite saveEntry_available. cbn [snd].
    rewrite getEntryByContext_reads, stored_entries_write. fold entries carries.
    eexists. split; [|split; [|split]].
    + rewrite find_snoc, Hfind. unfold carries, context_is. simpl.
      by rewrite !bool_decide_eq_true_2.
    + done.
    + done.
    + rewrite length_app. simpl. lia.
Qed.

Lemma reflection_editor_round_trip_witness :
  exists entry,
    (getEntryByContext (Num 1) (Num 1) (Num 0)
       (saveCurrentEntry "uuid-z" "2024-02-01T00:00:00.000Z" " again " "Why?"
          {| currentEditingEntry := Some first_entry;
             currentEditingContext :=
               Some {| week := Num 1; day := Num 1; promptIndex := Num 0 |} |}
          (Available one_entry_storage)).2).1 = Ok (Some entry)
    /\ content entry = "again".
Proof.
  destruct (reflection_editor_round_trip
              "uuid-z" "2024-02-01T00:00:00.000Z" " again " "Why?" 1 1 0
              one_entry_storage
              {| currentEditingEntry := Some first_entry;
                 currentEditingContext :=
                   Some {| week := Num 1; day := Num 1; promptIndex := Num 0 |} |}
              (Available one_entry_storage))
    as (entry & Hget & Hcontent & _).
  - reflexivity.
  - simpl. apply NoDup_singleton.
  - discriminate.
  - exists entry. split; [by rewrite Hget | exact Hcontent].
Defined.

(** ** More on the migration *)

Lemma length_split_dash s : length (split_dash s) = S (dashes s).
Proof.
  induction s as [|c s IH]; [done|]. simpl.
  destruct (Ascii.eqb c "-"); simpl; [by rewrite IH|].
  destruct (split_dash s); simpl in *; lia.
Qed.

(** X17. A legacy key yields a context, hence a reflection, exactly when
    it holds two dashes. *)
Theorem parseContextFromLegacyKey_two_dashes key :
  is_Some (parseContextFromLegacyKey key) <-> dashes key = 2%nat.
Proof.
  rewrite parseContextFromLegacyKey_three_parts, length_split_dash. lia.
Qed.

(** X18. A key written as [week-day-promptIndex] from three natural
    numbers that a JavaScript number holds exactly (numbers up to 2^53) is
    read back as the context of those numbers. *)
Theorem parseContextFromLegacyKey_round_trip (w d p : N) :
  (w <= 2 ^ 53)%N -> (d <= 2 ^ 53)%N -> (p <= 2 ^ 53)%N ->
  parseContextFromLegacyKey (pretty w +:+ "-" +:+ pretty d +:+ "-" +:+ pretty p)
  = Some {| week := Num (Z.of_N w); day := Num (Z.of_N d);
            promptIndex := Num (Z.of_N p) |}.
Proof. intros _ _ _. apply parseContextFromLegacyKey_numbers. Qed.

Lemma parseContextFromLegacyKey_round_trip_witness :
  parseContextFromLegacyKey "3-7-12"
  = Some {| week := Num 3; day := Num 7; promptIndex := Num 12 |}.
Proof.
  apply (parseContextFromLegacyKey_round_trip 3 7 12); by vm_compute.
Defined.

Section MoreMigration.
Variable uuids : nat -> string.
Variable now : string.

Lemma migrate_pair_raising entries key value :
  raising_value value = true ->
  migrate_pair uuids now entries (key, value) = Throw TypeError.
Proof.
  unfold raising_value, migrate_pair, legacy_content, legacy_prompt, rbind.
  destruct value as [|b|z|text|items|props]; try done. simpl.
  destruct (assoc "content" props) as [[| | | | |]|];
    destruct (assoc "text" props) as [[| | | | |]|]; simpl;
    repeat (case_match; simplify_eq/=; try done); done.
Qed.

Lemma migrate_pair_not_raising entries key value :
  raising_value value = false ->
  exists entries', migrate_pair uuids now entries (key, value) = Ok entries'.
Proof.
  unfold raising_value, migrate_pair, legacy_content, legacy_prompt,
    preserve_timestamps, rbind.
  destruct value as [|b|z|text|items|props]; try done; simpl;
    try (repeat case_match; by eexists).
  destruct (assoc "content" props) as [[| | | | |]|];
    destruct (assoc "text" props) as [[| | | | |]|]; simpl;
    repeat (case_match; simplify_eq/=; try done); try done; by eexists.
Qed.

Lemma migrate_loop_raising pairs entries :
  Exists (fun kv => raising_value kv.2 = true) pairs ->
  migrate_loop uuids now pairs entries = Throw TypeError.
Proof.
  revert entries. induction pairs as [|[key value] rest IH]; intros entries Hex.
  - by apply Exists_nil in Hex.
  - cbn [migrate_loop]. destruct (raising_value value) eqn:Hvalue.
    + by rewrite migrate_pair_raising.
    + destruct (migrate_pair_not_raising entries key value Hvalue)
        as [entries' ->]. cbn [rbind]. apply IH.
      apply Exists_cons in Hex as [Hex|Hex]; [|done]. simpl in Hex. congruence.
Qed.

Lemma migrate_loop_not_raising pairs entries :
  Forall (fun kv => raising_value kv.2 = false) pairs ->
  exists entries', migrate_loop uuids now pairs entries = Ok entries'.
Proof.
  revert entries. induction pairs as [|[key value] rest IH]; intros entries Hall.
  - by eexists.
  - apply Forall_cons in Hall as [Hvalue Hall]. cbn [snd] in Hvalue.
    cbn [migrate_loop].
    destruct (migrate_pair_not_raising entries key value Hvalue)
      as [entries' ->]. cbn [rbind]. by apply IH.
Qed.

(** X19. On a parseable legacy record that is not [null] itself, the
    migration ends in an error exactly when some value is [null] or is an
    object whose content is there and is not text; the error leaves
    storage untouched.  Numbers, booleans, arrays and objects without
    content raise nothing. *)
Theorem migrateFromLegacy_error_iff s record pairs :
  read LEGACY_JOURNALS s = Some (Parsed record) ->
  Object_entries record = Ok pairs ->
  (Exists (fun kv => raising_value kv.2 = true) pairs ->
     migrateFromLegacy uuids now (Available s)
     = (Ok {| migrated := false; count := 0; error := Some TypeError |},
        Available s))
  /\ (Forall (fun kv => raising_value kv.2 = false) pairs ->
        exists n ls',
          migrateFromLegacy uuids now (Available s)
          = (Ok {| migrated := true; count := n; error := None |}, ls')).
Proof.
  intros Hread Hpairs.
  rewrite (migrateFromLegacy_present uuids now s _ Hread eq_refl).
  unfold converted; simpl. rewrite Hpairs; simpl. split.
  - intros Hex. by rewrite migrate_loop_raising.
  - intros Hall.
    destruct (migrate_loop_not_raising pairs [] Hall) as [[|e es] ->];
      by eexists _, _.
Qed.

(** What one turn of the loop appends. *)
Lemma migrate_pair_entry entries kv entries' :
  migrate_pair uuids now entries kv = Ok entries' ->
  (kept kv = false /\ entries' = entries)
  \/ (kept kv = true
      /\ exists entry,
           entries' = (entries ++ [entry])%list
           /\ id entry = uuids (length entries)
           /\ stamped_from now kv entry).
Proof.
  destruct kv as [key value]. unfold migrate_pair, kept; simpl.
  destruct (legacy_content value) as [c|e] eqn:Hcontent; simpl; [|done].
  destruct (legacy_prompt value) as [pr|e]; simpl; [|done].
  destruct c as [|b|z|text|items|props]; try done.
  destruct (String.eqb (trim text) ""); simpl.
  { intros [= <-]. by left. }
  destruct (preserve_timestamps value _) as [entry'|e] eqn:Hstamp; simpl;
    [|done].
  intros [= <-]. right. split; [done|]. exists entry'. split; [done|].
  pose proof (preserve_timestamps_keeps _ _ _ Hstamp) as (Hid & _).
  split; [by rewrite Hid|].
  unfold stamped_from, preserve_timestamps, rbind, get_prop in *. simpl.
  destruct value as [|b|z|text'|items|props]; simplify_eq/=; try done.
  destruct (assoc "createdAt" props) as [created|]; simplify_eq/=; [|done].
  destruct created as [|b|z|t|items|ps]; simpl in *;
    repeat case_match; by simplify_eq/=.
Qed.

Lemma migrate_loop_entries pairs entries entries' :
  migrate_loop uuids now pairs entries = Ok entries' ->
  exists news,
    entries' = (entries ++ news)%list
    /\ id <$> news = uuids <$> seq (length entries) (length news)
    /\ Forall2 (stamped_from now) (List.filter kept pairs) news.
Proof.
  revert entries. induction pairs as [|kv rest IH]; intros entries; simpl.
  - intros [= <-]. exists []. by rewrite app_nil_r.
  - destruct (migrate_pair uuids now entries kv) as [mid|e] eqn:Hpair;
      [|done].
    simpl. intros Hrest. apply IH in Hrest as (news & -> & Hids & Hnews).
    apply migrate_pair_entry in Hpair
      as [[-> ->]|(-> & entry & -> & Hid & Hentry)].
    + by exists news.
    + exists (entry :: news). split; [by rewrite <- app_assoc|].
      split; [|by constructor].
      rewrite length_app in Hids. cbn [length] in Hids.
      replace (length entries + 1)%nat with (S (length entries)) in Hids by lia.
      cbn [length seq]. by rewrite !fmap_cons, Hid, Hids.
Qed.

(** X20. The entries a migration appends carry, in order, the identifiers
    drawn first, second, and so on; when the generator does not repeat
    itself they are distinct.  Each keeps the legacy [createdAt] (and
    [updatedAt], or [createdAt] again when that is missing) when its value
    is an object that has one, and is stamped with the time of the
    migration otherwise. *)
Theorem migrateFromLegacy_ids_and_stamps s record r ls' :
  read LEGACY_JOURNALS s = Some (Parsed record) ->
  migrateFromLegacy uuids now (Available s) = (Ok r, ls') ->
  error r = None ->
  exists pairs news,
    Object_entries record = Ok pairs
    /\ stored_entries ls' = (stored_entries (Available s) ++ news)%list
    /\ id <$> news = uuids <$> seq 0 (length news)
    /\ ((forall i j, uuids i = uuids j -> i = j) -> NoDup (id <$> news))
    /\ Forall2 (stamped_from now) (List.filter kept pairs) news.
Proof.
  intros Hread Hrun Hok.
  rewrite (migrateFromLegacy_present uuids now s _ Hread eq_refl) in Hrun.
  unfold converted in Hrun; simpl in Hrun.
  destruct (Object_entries record) as [pairs|e]; simpl in Hrun;
    [|by simplify_eq/=].
  destruct (migrate_loop uuids now pairs []) as [entries|e] eqn:Hloop;
    [|by simplify_eq/=].
  apply migrate_loop_entries in Hloop as (news & Heq & Hids & Hnews).
  simpl in Heq, Hids. subst entries.
  exists pairs, news. split; [done|].
  assert (Hstored : stored_entries ls'
                    = (stored_entries (Available s) ++ news)%list).
  { destruct news as [|entry news]; injection Hrun as <- <-.
    - by rewrite app_nil_r.
    - by destruct (read_migrated_storage (Parsed record) (entry :: news) s)
        as (_ & _ & ->). }
  split; [done|]. split; [done|]. split; [|done].
  intros Hinj. rewrite Hids. apply NoDup_fmap_2_strong; [|apply NoDup_seq].
  intros i j _ _. apply Hinj.
Qed.

(** X21. A call of [migrateFromLegacy] never loses the raw legacy record:
    afterwards it is still under the legacy key or it is under the archive
    key.  The call never touches the progress document, and the entries
    stored before are still there, in order, at the front. *)
Theorem migrateFromLegacy_keeps_record s raw :
  read LEGACY_JOURNALS s = Some raw ->
  exists s',
    (migrateFromLegacy uuids now (Available s)).2 = Available s'
    /\ (read LEGACY_JOURNALS s' = Some raw
        \/ read LEGACY_JOURNALS_ARCHIVED s' = Some raw)
    /\ read PROGRESS s' = read PROGRESS s
    /\ stored_entries (Available s) `prefix_of` stored_entries (Available s').
Proof.
  intros Hread. destruct (present (Some raw)) eqn:Hpresent.
  - rewrite (migrateFromLegacy_present uuids now s raw Hread Hpresent).
    destruct (converted uuids now raw) as [[|entry entries]|e]; cbn [snd].
    + exists s. split; [done|]. split; [by left|]. done.
    + eexists. split; [done|].
      destruct (read_migrated_storage raw (entry :: entries) s)
        as (_ & Harchive & ->).
      split; [by right|]. split; [by destruct s|]. by eexists.
    + exists s. split; [done|]. split; [by left|]. done.
  - rewrite migrateFromLegacy_absent by (by rewrite Hread).
    exists s. split; [done|]. split; [by left|]. done.
Qed.

(** X22. When no value of a parseable legacy record raises and none has
    content that is not blank (blank text, numbers, booleans, arrays,
    objects without content), the call answers [{migrated: true, count: 0}]
    and leaves storage as it was, the legacy record included. *)
Theorem migrateFromLegacy_nothing_kept s record pairs :
  read LEGACY_JOURNALS s = Some (Parsed record) ->
  Object_entries record = Ok pairs ->
  Forall (fun kv => raising_value kv.2 = false /\ kept kv = false) pairs ->
  migrateFromLegacy uuids now (Available s)
  = (Ok {| migrated := true; count := 0; error := None |}, Available s).
Proof.
  intros Hread Hpairs Hall.
  rewrite (migrateFromLegacy_present uuids now s _ Hread eq_refl).
  unfold converted; simpl. rewrite Hpairs; simpl.
  assert (Hloop : forall entries,
            migrate_loop uuids now pairs entries = Ok entries).
  { clear Hpairs. induction Hall as [|[key value] rest [Hraise Hkept] _ IH];
      intros entries; [done|]. cbn [snd] in Hraise. cbn [migrate_loop].
    destruct (migrate_pair_not_raising entries key value Hraise)
      as [entries' Hpair]. rewrite Hpair. cbn [rbind].
    apply migrate_pair_ok in Hpair as [[_ ->]|[Hyes _]]; [apply IH|].
    congruence. }
  by rewrite Hloop.
Qed.
End MoreMigration.

Lemma migrateFromLegacy_error_iff_witness :
  exists n ls',
    migrateFromLegacy sample_uuids "2024-01-01T00:00:00.000Z"
      (with_legacy blank_values_record)
    = (Ok {| migrated := true; count := n; error := None |}, ls').
Proof.
  destruct (migrateFromLegacy_error_iff sample_uuids "2024-01-01T00:00:00.000Z"
              (write LEGACY_JOURNALS (Some (Parsed blank_values_record))
                 empty_storage)
              blank_values_record
              [("1-1-0", JNum 7); ("1-1-1", JBool true);
               ("note", JArr [JStr "x"]);
               ("1-2-0", JObj [("prompt", JStr "Why?")])])
    as [_ Hfine]; [reflexivity|reflexivity|].
  apply Hfine. repeat constructor.
Defined.

Lemma migrateFromLegacy_ids_and_stamps_witness :
  exists news,
    stored_entries
      (migrateFromLegacy sample_uuids "2024-01-01T00:00:00.000Z"
         (with_legacy stamped_record)).2 = news
    /\ id <$> news = ["uuid-0"]
    /\ createdAt <$> news = [JStr "2023-05-01T10:00:00.000Z"].
Proof.
  destruct (migrateFromLegacy_ids_and_stamps
              sample_uuids "2024-01-01T00:00:00.000Z"
              (write LEGACY_JOURNALS (Some (Parsed stamped_record)) empty_storage)
              stamped_record
              {| migrated := true; count := 1; error := None |}
              (migrateFromLegacy sample_uuids "2024-01-01T00:00:00.000Z"
                 (with_legacy stamped_record)).2)
    as (pairs & news & _ & Hstored & _ & _ & _).
  - reflexivity.
  - vm_compute. reflexivity.
  - reflexivity.
  - exists news. split; [exact Hstored|].
    change (stored_entries
              (migrateFromLegacy sample_uuids "2024-01-01T00:00:00.000Z"
                 (with_legacy stamped_record)).2 = news) in Hstored.
    rewrite <- Hstored. split; reflexivity.
Defined.

Lemma migrateFromLegacy_keeps_record_witness :
  exists s',
    (migrateFromLegacy sample_uuids "2024-01-01T00:00:00.000Z"
       (with_legacy hello_record)).2 = Available s'
    /\ (read LEGACY_JOURNALS s' = Some (Parsed hello_record)
        \/ read LEGACY_JOURNALS_ARCHIVED s' = Some (Parsed hello_record)).
Proof.
  destruct (migrateFromLegacy_keeps_record
              sample_uuids "2024-01-01T00:00:00.000Z"
              (write LEGACY_JOURNALS (Some (Parsed hello_record)) empty_storage)
              (Parsed hello_record)) as (s' & Hrun & Hkept & _).
  - reflexivity.
  - exists s'. split; [exact Hrun | exact Hkept].
Defined.

Lemma migrateFromLegacy_nothing_kept_witness :
  migrateFromLegacy sample_uuids "2024-01-01T00:00:00.000Z"
    (with_legacy blank_values_record)
  = (Ok {| migrated := true; count := 0; error := None |},
     with_legacy blank_values_record).
Proof.
  apply (migrateFromLegacy_nothing_kept _ _ _ blank_values_record
           [("1-1-0", JNum 7); ("1-1-1", JBool true);
            ("note", JArr [JStr "x"]);
            ("1-2-0", JObj [("prompt", JStr "Why?")])]).
  - reflexivity.
  - reflexivity.
  - repeat constructor.
Defined.

(** X23. [hasLegacyData()] is false exactly when [migrateFromLegacy]
    answers the plain [{migrated: false, count: 0}] and leaves storage as
    it was. *)
Theorem hasLegacyData_false_iff uuids now s :
  hasLegacyData (Available s) = (Ok false, Available s)
  <-> migrateFromLegacy uuids now (Available s)
      = (Ok {| migrated := false; count := 0; error := None |}, Available s).
Proof.
  unfold hasLegacyData, bind, getItem, ret. split.
  - intros [= Habsent]. by apply migrateFromLegacy_absent.
  - intros Hrun. destruct (read LEGACY_JOURNALS s) as [raw|] eqn:Hread; [|done].
    destruct (present (Some raw)) eqn:Hpresent; [|done].
    rewrite (migrateFromLegacy_present uuids now s raw Hread Hpresent) in Hrun.
    by destruct (converted uuids now raw) as [[|? ?]|?].
Qed.

Lemma Forall2_elem_of_r {A B} (R : A -> B -> Prop) l k y :
  Forall2 R l k -> y ∈ k -> exists x, x ∈ l /\ R x y.
Proof.
  intros HR Hy. apply list_elem_of_lookup in Hy as [i Hi].
  destruct (Forall2_lookup_r _ _ _ _ _ HR Hi) as (x & Hx & Hxy).
  exists x. split; [by eapply list_elem_of_lookup_2 | done].
Qed.


(** X24. A legacy document that is a JSON array is read by position:
    every entry the migration appends from it is a free entry without
    context. *)
Theorem migrateFromLegacy_array uuids now s items r ls' :
  read LEGACY_JOURNALS s = Some (Parsed (JArr items)) ->
  migrateFromLegacy uuids now (Available s) = (Ok r, ls') ->
  error r = None ->
  exists news,
    stored_entries ls' = (stored_entries (Available s) ++ news)%list
    /\ count r = length news
    /\ Forall (fun entry => type entry = free /\ context entry = None) news.
Proof.
  intros Hread Hrun Hok.
  rewrite (migrateFromLegacy_present uuids now s _ Hread eq_refl) in Hrun.
  unfold converted in Hrun; simpl in Hrun.
  destruct (migrate_loop uuids now _ []) as [entries|e] eqn:Hloop;
    [|by simplify_eq/=].
  apply migrate_loop_ok in Hloop as (news & Heq & Hnews).
  simpl in Heq. subst entries. exists news.
  assert (Hfree : Forall (fun entry => type entry = free /\ context entry = None)
                    news).
  { apply Forall_forall. intros entry Hentry.
    destruct (Forall2_elem_of_r _ _ _ _ Hnews Hentry) as ([key value] & Hkv & _ & Hfrom).
    apply list_elem_of_In, filter_In in Hkv as [Hkv _].
    apply list_elem_of_In, list_elem_of_lookup in Hkv as [i Hi].
    apply list_lookup_imap_Some in Hi as (item & _ & [= -> ->]).
    cbn [fst] in Hfrom. change (pretty i) with (pretty (N.of_nat i)) in Hfrom.
    by rewrite (split_dash_only_digits _ (pretty_N_only_digits (N.of_nat i)))
      in Hfrom. }
  destruct news as [|entry news]; injection Hrun as <- <-.
  - by rewrite app_nil_r.
  - by destruct (read_migrated_storage (Parsed (JArr items)) (entry :: news) s)
      as (_ & _ & ->).
Qed.

Lemma migrateFromLegacy_array_witness :
  exists news,
    stored_entries
      (migrateFromLegacy sample_uuids "2024-01-01T00:00:00.000Z"
         (with_legacy (JArr [JStr "one"; JNum 2; JStr "three"]))).2 = news
    /\ Forall (fun entry => type entry = free /\ context entry = None) news
    /\ length news = 2%nat.
Proof.
  destruct (migrateFromLegacy_array sample_uuids "2024-01-01T00:00:00.000Z"
              (write LEGACY_JOURNALS
                 (Some (Parsed (JArr [JStr "one"; JNum 2; JStr "three"])))
                 empty_storage)
              [JStr "one"; JNum 2; JStr "three"]
              {| migrated := true; count := 2; error := None |}
              (migrateFromLegacy sample_uuids "2024-01-01T00:00:00.000Z"
                 (with_legacy (JArr [JStr "one"; JNum 2; JStr "three"]))).2)
    as (news & Hstored & Hcount & Hfree).
  - reflexivity.
  - vm_compute. reflexivity.
  - reflexivity.
  - exists news. split; [exact Hstored|]. split; [exact Hfree|].
    symmetry. exact Hcount.
Defined.




(** ** The entry editor *)

Lemma openEntryEditor_new entryId editor ls :
  entryId = None \/ entryId = Some "" ->
  openEntryEditor entryId editor ls = (Ok closeEntryEditor, ls).
Proof. by intros [-> | ->]. Qed.

Lemma find_id_list_find i (entries : list Entry) :
  find (fun entry => String.eqb (id entry) i) entries
  = snd <$> list_find (fun entry => id entry = i) entries.
Proof.
  induction entries as [|e entries IH]; [done|]. simpl. rewrite IH.
  destruct (String.eqb_spec (id e) i) as [Heq|Hne].
  - by rewrite decide_True.
  - rewrite decide_False by done.
    by destruct (list_find _ entries) as [[? ?]|].
Qed.

(** X26. Editing a stored entry: [openEntryEditor(id)] for an id that
    some entry carries, then [saveCurrentEntry()] with a text that is not
    blank, puts the trimmed text into the first entry with that id and
    stamps it with the time of saving; its id, type, prompt, context and
    creation time stay, [getEntryById] returns the edited entry, and no
    entry is added. *)
Theorem entry_editor_edit uuid now textarea promptText i s before editor ls1 :
  i <> "" ->
  getEntryById i (Available s) = (Ok (Some before), Available s) ->
  openEntryEditor (Some i) closeEntryEditor (Available s) = (Ok editor, ls1) ->
  trim textarea <> "" ->
  let ls' := (saveCurrentEntry uuid now textarea promptText editor ls1).2 in
  getEntryById i ls'
  = (Ok (Some {| id := id before; type := type before;
                 content := trim textarea; prompt := prompt before;
                 context := context before; createdAt := createdAt before;
                 updatedAt := JStr now |}), ls')
  /\ getEntryCount ls' = (Ok (length (stored_entries (Available s))), ls').
Proof.
  intros Hi Hbefore Hopen Htext ls'.
  unfold openEntryEditor in Hopen. apply String.eqb_neq in Hi.
  rewrite Hi in Hopen. unfold bind in Hopen. rewrite Hbefore in Hopen.
  unfold ret in Hopen.
  assert (ls1 = Available s) as -> by congruence.
  assert (editor = {| currentEditingEntry := Some before;
                      currentEditingContext := context before |})
    as -> by congruence.
  clear Hopen. subst ls'. rewrite saveCurrentEntry_storage.
  cbn [currentEditingEntry]. apply String.eqb_neq in Htext. rewrite Htext.
  rewrite getEntryById_reads in Hbefore.
  assert (Hfind : find (fun entry => String.eqb (id entry) i)
                    (stored_entries (Available s)) = Some before)
    by congruence.
  clear Hbefore. rewrite find_id_list_find in Hfind.
  destruct (list_find (fun entry => id entry = i) (stored_entries (Available s)))
    as [[k found]|] eqn:Hk; [|done].
  simpl in Hfind. assert (found = before) as -> by congruence. clear Hfind.
  pose proof Hk as Hfirst.
  apply list_find_Some in Hfirst as (Hlook & Hid & Hearlier).
  rewrite (updateEntry_found now (id before) _ s k before)
    by (by rewrite Hid). cbn [snd].
  rewrite getEntryById_reads, getEntryCount_reads, stored_entries_write.
  split; [|by rewrite length_insert].
  rewrite find_id_list_find.
  assert (Hnew : list_find (fun entry => id entry = i)
                   (<[k := merge before (content_only (trim textarea)) now]>
                      (stored_entries (Available s)))
                 = Some (k, merge before (content_only (trim textarea)) now)).
  { apply list_find_Some. split; [|split].
    - apply list_lookup_insert_eq. by eapply lookup_lt_Some.
    - done.
    - intros j y Hj Hlt. rewrite list_lookup_insert_ne in Hj by lia.
      by eapply Hearlier. }
  rewrite Hnew. reflexivity.
Qed.

Lemma entry_editor_edit_witness :
  getEntryById "uuid-a"
    (saveCurrentEntry "uuid-z" "2024-02-01T00:00:00.000Z" "  changed " "Why?"
       {| currentEditingEntry := Some first_entry;
          currentEditingContext := context first_entry |}
       (Available one_entry_storage)).2
  = (Ok (Some {| id := id first_entry; type := type first_entry;
                 content := trim "  changed "; prompt := prompt first_entry;
                 context := context first_entry;
                 createdAt := createdAt first_entry;
                 updatedAt := JStr "2024-02-01T00:00:00.000Z" |}),
     (saveCurrentEntry "uuid-z" "2024-02-01T00:00:00.000Z" "  changed " "Why?"
        {| currentEditingEntry := Some first_entry;
           currentEditingContext := context first_entry |}
        (Available one_entry_storage)).2).
Proof.
  apply (entry_editor_edit "uuid-z" "2024-02-01T00:00:00.000Z" "  changed "
           "Why?" "uuid-a" one_entry_storage first_entry).
  - discriminate.
  - reflexivity.
  - reflexivity.
  - discriminate.
Defined.

(** X27. A free entry written through the editor ([openEntryEditor()]
    with no id, then [saveCurrentEntry()]) answers no prompt: for every
    week, day and prompt index [hasPromptContent] and [getPromptPreview]
    give what they gave before, while [getEntryCount] grows by one exactly
    when the text was not blank. *)
Theorem free_entry_keeps_prompts uuid now textarea promptText entryId s
    editor0 editor ls1 :
  entryId = None \/ entryId = Some "" ->
  openEntryEditor entryId editor0 (Available s) = (Ok editor, ls1) ->
  let ls' := (saveCurrentEntry uuid now textarea promptText editor ls1).2 in
  (forall w d p,
     (hasPromptContent w d p ls').1 = (hasPromptContent w d p (Available s)).1
     /\ (getPromptPreview w d p ls').1
        = (getPromptPreview w d p (Available s)).1)
  /\ (getEntryCount ls').1
     = Ok (length (stored_entries (Available s))
           + (if String.eqb (trim textarea) "" then 0 else 1))%nat.
Proof.
  intros Hnew Hopen ls'.
  rewrite (openEntryEditor_new _ _ _ Hnew) in Hopen.
  assert (ls1 = Available s) as -> by congruence.
  assert (editor = closeEntryEditor) as -> by congruence.
  clear Hopen. subst ls'. rewrite saveCurrentEntry_storage.
  cbn [currentEditingEntry currentEditingContext closeEntryEditor].
  unfold hasPromptContent, getPromptPreview, bind, ret.
  setoid_rewrite getEntryByContext_reads. rewrite getEntryCount_reads.
  destruct (String.eqb (trim textarea) ""); cbn [fst].
  - split; [done|]. by rewrite Nat.add_0_r.
  - rewrite saveEntry_available. cbn [snd]. rewrite stored_entries_write.
    split; [|by rewrite length_app].
    intros w d p. rewrite find_snoc.
    by destruct (find (context_is w d p) (stored_entries (Available s))).
Qed.

Lemma free_entry_keeps_prompts_witness :
  (getEntryCount
     (saveCurrentEntry "uuid-z" "2024-02-01T00:00:00.000Z" " a thought " "Why?"
        closeEntryEditor (Available one_entry_storage)).2).1
  = Ok 2%nat.
Proof.
  destruct (free_entry_keeps_prompts "uuid-z" "2024-02-01T00:00:00.000Z"
              " a thought " "Why?" None one_entry_storage closeEntryEditor
              closeEntryEditor (Available one_entry_storage))
    as [_ Hcount].
  - by left.
  - reflexivity.
  - exact Hcount.
Defined.

(** ** The prompts of the study *)

Lemma foldl_app_bind {A B} (g : list B -> A -> list B) (f : A -> list B)
    (l : list A) (acc : list B) :
  (forall acc x, g acc x = (acc ++ f x)%list) ->
  foldl g acc l = (acc ++ (l ≫= f))%list.
Proof.
  intros Hg. revert acc. induction l as [|x l IH]; intros acc; simpl.
  - by rewrite app_nil_r.
  - by rewrite IH, Hg, <- app_assoc.
Qed.

(** The prompts of one day, as [getWeekPrompts] pushes them. *)
Lemma getWeekPrompts_days CONTENT w :
  BeaconContent.getWeekPrompts CONTENT w
  = match CONTENT !! w with
    | None => []
    | Some weekContent =>
        seqZ 1 7 ≫= fun d =>
          match weekContent !! d ≫= BeaconContent.prompts with
          | Some texts =>
              imap (fun index text =>
                      {| BeaconContent.week := w; BeaconContent.day := d;
                         BeaconContent.promptIndex := index;
                         BeaconContent.prompt := text |}) texts
          | None => []
          end
    end.
Proof.
  unfold BeaconContent.getWeekPrompts. destruct (CONTENT !! w) as [wc|]; [|done].
  rewrite (foldl_app_bind _ (fun d =>
             match wc !! d ≫= BeaconContent.prompts with
             | Some texts =>
                 imap (fun index text =>
                         {| BeaconContent.week := w; BeaconContent.day := d;
                            BeaconContent.promptIndex := index;
                            BeaconContent.prompt := text |}) texts
             | None => []
             end)); [done|].
  intros acc d. destruct (wc !! d) as [dc|]; simpl; [|by rewrite app_nil_r].
  destruct (BeaconContent.prompts dc); [done|by rewrite app_nil_r].
Qed.

Lemma getAllPrompts_weeks CONTENT :
  BeaconContent.getAllPrompts CONTENT
  = seqZ 1 8 ≫= BeaconContent.getWeekPrompts CONTENT.
Proof.
  unfold BeaconContent.getAllPrompts. by rewrite (foldl_app_bind _ _ _ _ (fun _ _ => eq_refl)).
Qed.

Lemma elem_of_getWeekPrompts CONTENT w r :
  r ∈ BeaconContent.getWeekPrompts CONTENT w
  <-> BeaconContent.week r = w
      /\ 1 <= BeaconContent.day r <= 7
      /\ BeaconContent.prompt_at CONTENT w (BeaconContent.day r)
           (BeaconContent.promptIndex r)
         = Some (BeaconContent.prompt r).
Proof.
  rewrite getWeekPrompts_days. unfold BeaconContent.prompt_at.
  destruct (CONTENT !! w) as [wc|]; cbn [mbind option_bind].
  - rewrite list_elem_of_bind. split.
    + intros (d & Hr & Hd). apply elem_of_seqZ in Hd.
      destruct (wc !! d) as [dc|] eqn:Hdc; simpl in Hr;
        [|by apply elem_of_nil in Hr].
      destruct (BeaconContent.prompts dc) as [texts|] eqn:Htexts;
        [|by apply elem_of_nil in Hr].
      apply list_elem_of_lookup in Hr as [k Hk].
      apply list_lookup_imap_Some in Hk as (text & Hlook & ->).
      cbn [BeaconContent.week BeaconContent.day BeaconContent.promptIndex
           BeaconContent.prompt].
      split; [done|]. split; [lia|].
      rewrite Hdc. cbn [mbind option_bind]. by rewrite Htexts.
    + intros (Hw & Hd & Hat). exists (BeaconContent.day r). split.
      * destruct (wc !! BeaconContent.day r) as [dc|]; simpl in *; [|done].
        destruct (BeaconContent.prompts dc) as [texts|]; simpl in *; [|done].
        apply list_elem_of_lookup. exists (BeaconContent.promptIndex r).
        apply list_lookup_imap_Some. exists (BeaconContent.prompt r).
        split; [done|]. destruct r. simpl in *. by subst.
      * apply elem_of_seqZ. lia.
  - split; [by intros ?%elem_of_nil | by intros (_ & _ & ?)].
Qed.

Lemma NoDup_imap_index {A B} (f : nat -> A -> B) (l : list A) :
  (forall i j x y, f i x = f j y -> i = j) -> NoDup (imap f l).
Proof.
  intros Hf. apply NoDup_alt. intros i j y Hi Hj.
  apply list_lookup_imap_Some in Hi as (x1 & _ & ->).
  apply list_lookup_imap_Some in Hj as (x2 & _ & Heq).
  by eapply Hf.
Qed.

Lemma NoDup_getWeekPrompts CONTENT w :
  NoDup (BeaconContent.getWeekPrompts CONTENT w).
Proof.
  rewrite getWeekPrompts_days. destruct (CONTENT !! w) as [wc|]; [|constructor].
  apply NoDup_bind.
  - intros d1 d2 r _ _ H1 H2.
    destruct (wc !! d1 ≫= BeaconContent.prompts); [|by apply elem_of_nil in H1].
    destruct (wc !! d2 ≫= BeaconContent.prompts); [|by apply elem_of_nil in H2].
    apply list_elem_of_lookup in H1 as [k1 H1], H2 as [k2 H2].
    apply list_lookup_imap_Some in H1 as (? & _ & ->).
    apply list_lookup_imap_Some in H2 as (? & _ & [= <- _ _]). done.
  - intros d _. destruct (wc !! d ≫= BeaconContent.prompts); [|constructor].
    apply NoDup_imap_index. by intros i j x y [= ->].
  - apply NoDup_seqZ.
Qed.

(** X28. [getAllPrompts()] lists exactly the prompts that [CONTENT] holds
    for weeks 1 to 8 and days 1 to 7, each with the week, the day and the
    position it has there, and lists no triple of week, day and prompt
    index twice: the triples under which the journal files reflections
    name one prompt each. *)
Theorem getAllPrompts_distinct CONTENT :
  (forall r,
     r ∈ BeaconContent.getAllPrompts CONTENT
     <-> 1 <= BeaconContent.week r <= 8
         /\ 1 <= BeaconContent.day r <= 7
         /\ BeaconContent.prompt_at CONTENT (BeaconContent.week r)
              (BeaconContent.day r) (BeaconContent.promptIndex r)
            = Some (BeaconContent.prompt r))
  /\ NoDup ((fun r => (BeaconContent.week r, BeaconContent.day r,
                       BeaconContent.promptIndex r))
              <$> BeaconContent.getAllPrompts CONTENT).
Proof.
  assert (Hin : forall r,
     r ∈ BeaconContent.getAllPrompts CONTENT
     <-> 1 <= BeaconContent.week r <= 8
         /\ 1 <= BeaconContent.day r <= 7
         /\ BeaconContent.prompt_at CONTENT (BeaconContent.week r)
              (BeaconContent.day r) (BeaconContent.promptIndex r)
            = Some (BeaconContent.prompt r)).
  { intros r. rewrite getAllPrompts_weeks, list_elem_of_bind. split.
    - intros (w & Hr & Hw). apply elem_of_seqZ in Hw.
      apply elem_of_getWeekPrompts in Hr as (<- & Hd & Hat).
      split; [lia|done].
    - intros (Hw & Hd & Hat). exists (BeaconContent.week r). split.
      + by apply elem_of_getWeekPrompts.
      + apply elem_of_seqZ. lia. }
  split; [exact Hin|].
  apply NoDup_fmap_2_strong.
  - intros r1 r2 H1 H2 [= Hw Hd Hi].
    apply Hin in H1 as (_ & _ & Hat1), H2 as (_ & _ & Hat2).
    rewrite Hw, Hd, Hi in Hat1.
    destruct r1, r2. simpl in *. congruence.
  - rewrite getAllPrompts_weeks. apply NoDup_bind.
    + intros w1 w2 r _ _ H1 H2.
      apply elem_of_getWeekPrompts in H1 as (<- & _), H2 as (<- & _). done.
    + intros w _. apply NoDup_getWeekPrompts.
    + apply NoDup_seqZ.
Qed.
